(** * Page-range parsing, formatting and ordering of the PDF editor

    A shallow embedding of the page-range engine of the client-side PDF
    editor: [parsePageRanges] (both variants found in the repository),
    [PagePreview.formatPageRanges], the selection operations of
    [PagePreview] and the drag-and-drop reordering of the merge file list.

    Conventions of the embedding:
    - a JavaScript string is the list of its UTF-16 code units;
    - a JavaScript number that holds an integer is a [Z] (the page numbers
      and indices handled here are far below 2^53, where the two agree);
      [NaN] and [undefined] in a numeric position are [None];
    - an array is a list, [push] appends at the end;
    - a [Set] is the list of its members in insertion order;
    - a counting [for] loop carries an iteration budget and yields [None]
      when the budget is exhausted before the loop condition fails. *)

From Stdlib Require Import ZArith NArith List Bool Lia String Ascii.
From Stdlib Require Import Permutation Sorted.
Import ListNotations.
Local Open Scope Z_scope.

(** ** JavaScript primitives used by the code *)

Module Js.

(** A UTF-16 code unit. *)
Definition char : Type := N.

Definition jsstring : Type := list char.

(** An ASCII literal as a JavaScript string. *)
Definition lit (s : string) : jsstring :=
  map N_of_ascii (list_ascii_of_string s).

Definition comma : char := 44%N.
Definition dash : char := 45%N.
Definition plus : char := 43%N.

(** WhiteSpace and LineTerminator code units of ECMAScript, the ones
    removed by [String.prototype.trim] and skipped by [parseInt]. *)
Definition is_white (c : char) : bool :=
  existsb (N.eqb c)
    [9; 10; 11; 12; 13; 32; 160; 5760;
     8192; 8193; 8194; 8195; 8196; 8197; 8198; 8199; 8200; 8201; 8202;
     8232; 8233; 8239; 8287; 12288; 65279]%N.

Definition is_digit (c : char) : bool :=
  (48 <=? c)%N && (c <=? 57)%N.

Definition digit_value (c : char) : Z := Z.of_N (c - 48).

Definition digit_char (d : Z) : char := (48 + Z.to_N d)%N.

(** [String.prototype.trim]. *)
Fixpoint trim_start (s : jsstring) : jsstring :=
  match s with
  | [] => []
  | c :: s' => if is_white c then trim_start s' else s
  end.

Definition trim_end (s : jsstring) : jsstring :=
  rev (trim_start (rev s)).

Definition trim (s : jsstring) : jsstring :=
  trim_end (trim_start s).

(** [s.includes(c)] for a one-character needle. *)
Definition includes (c : char) (s : jsstring) : bool :=
  existsb (N.eqb c) s.

(** [s.split(sep)] for a one-character separator: never empty,
    [split sep ""] is the array holding one empty string. *)
Fixpoint split (sep : char) (s : jsstring) : list jsstring :=
  match s with
  | [] => [[]]
  | c :: s' =>
      if (c =? sep)%N then [] :: split sep s'
      else match split sep s' with
           | p :: ps => (c :: p) :: ps
           | [] => [[c]]
           end
  end.

(** [parts.join(sep)] for a one-character separator. *)
Fixpoint join (sep : char) (parts : list jsstring) : jsstring :=
  match parts with
  | [] => []
  | [p] => p
  | p :: rest => p ++ sep :: join sep rest
  end.

(** The longest prefix of decimal digits. *)
Fixpoint digits_prefix (s : jsstring) : jsstring :=
  match s with
  | [] => []
  | c :: s' => if is_digit c then c :: digits_prefix s' else []
  end.

Definition digits_value (ds : jsstring) : Z :=
  fold_left (fun acc c => 10 * acc + digit_value c) ds 0.

(** [parseInt(s, 10)]: skip leading white space, read an optional sign,
    then the longest run of decimal digits; [None] is [NaN]. *)
Definition parseInt (s : jsstring) : option Z :=
  let s1 := trim_start s in
  let '(sign, s2) :=
    match s1 with
    | c :: r =>
        if (c =? dash)%N then (-1, r)
        else if (c =? plus)%N then (1, r)
        else (1, s1)
    | [] => (1, [])
    end in
  match digits_prefix s2 with
  | [] => None
  | ds => Some (sign * digits_value ds)
  end.

(** Decimal digits of a non-negative integer, most significant first. *)
Fixpoint to_digits (fuel : nat) (n : Z) : jsstring :=
  match fuel with
  | O => []
  | S fuel' =>
      if n <? 10 then [digit_char n]
      else to_digits fuel' (n / 10) ++ [digit_char (n mod 10)]
  end.

(** The string of an integer number, as a template literal renders it. *)
Definition toString (n : Z) : jsstring :=
  if n <? 0 then dash :: to_digits (S (Z.to_nat (Z.log2 (- n)))) (- n)
  else to_digits (S (Z.to_nat (Z.log2 n))) n.

(** A [Set] of numbers, its members in insertion order. *)
Definition set_has (x : Z) (s : list Z) : bool := existsb (Z.eqb x) s.

Definition set_add (x : Z) (s : list Z) : list Z :=
  if set_has x s then s else s ++ [x].

Definition set_delete (x : Z) (s : list Z) : list Z :=
  filter (fun y => negb (y =? x)) s.

(** [new Set(array)]. *)
Definition set_of_array (l : list Z) : list Z :=
  fold_left (fun s x => set_add x s) l [].

(** [array.sort(cmp)] with a comparator returning a number: a stable
    insertion sort, an element goes after those it does not precede. *)
Fixpoint sort_insert (cmp : Z -> Z -> Z) (x : Z) (l : list Z) : list Z :=
  match l with
  | [] => [x]
  | y :: l' => if cmp x y <? 0 then x :: l else y :: sort_insert cmp x l'
  end.

Definition sort (cmp : Z -> Z -> Z) (l : list Z) : list Z :=
  fold_left (fun acc x => sort_insert cmp x acc) l [].

(** [array[i]], which is [undefined] outside the array. *)
Definition index {A : Type} (undefined : A) (l : list A) (i : Z) : A :=
  if i <? 0 then undefined else nth (Z.to_nat i) l undefined.

(** The clamped start position of [array.splice(start, ...)]. *)
Definition splice_start (len start : Z) : nat :=
  Z.to_nat (if start <? 0 then Z.max (len + start) 0 else Z.min start len).

(** [array.splice(start, 1)]. *)
Definition splice_remove {A : Type} (start : Z) (l : list A) : list A :=
  let k := splice_start (Z.of_nat (List.length l)) start in
  firstn k l ++ skipn (S k) l.

(** [array.splice(start, 0, x)]. *)
Definition splice_insert {A : Type} (start : Z) (x : A) (l : list A)
  : list A :=
  let k := splice_start (Z.of_nat (List.length l)) start in
  firstn k l ++ x :: skipn k l.

(** [a === b] on strings. *)
Fixpoint string_eqb (a b : jsstring) : bool :=
  match a, b with
  | [], [] => true
  | x :: a', y :: b' => (x =? y)%N && string_eqb a' b'
  | _, _ => false
  end.

(** [array[i] = v]: inside the array the element is replaced, at or past
    the end the array grows up to position [i] (the gap reads as
    [undefined]), a negative [i] names no element. *)
Definition assign {A : Type} (undefined : A) (l : list A) (i : Z) (v : A)
  : list A :=
  if i <? 0 then l
  else if i <? Z.of_nat (List.length l)
  then firstn (Z.to_nat i) l ++ v :: skipn (S (Z.to_nat i)) l
  else l ++ repeat undefined (Z.to_nat i - List.length l) ++ [v].

(** [s.padStart(targetLength, pad)] for a one-character [pad]. *)
Definition padStart (targetLength : nat) (pad : char) (s : jsstring)
  : jsstring :=
  repeat pad (targetLength - List.length s) ++ s.

(** [a < b] on strings: the order of the code units, the one
    [Array.prototype.sort] uses by default. *)
Fixpoint string_ltb (a b : jsstring) : bool :=
  match a, b with
  | _, [] => false
  | [], _ :: _ => true
  | x :: a', y :: b' =>
      if (x <? y)%N then true
      else if (x =? y)%N then string_ltb a' b' else false
  end.

End Js.

Import Js.

(** A step of the option monad: [None] only ever stands for an exhausted
    iteration budget. *)
Notation "x <- e ;; k" :=
  (match e with Some x => k | None => None end)
  (at level 61, e at next level, right associativity).

(** ** src/js/app.js *)

Module App.

(** [for (let i = start; i <= hi; i++) pageNumbers.push(i)], where [hi]
    is [Math.min(end, totalPages)]. *)
Fixpoint push_loop (budget : nat) (i hi : Z) (pageNumbers : list Z)
  : option (list Z) :=
  if i <=? hi then
    match budget with
    | O => None
    | S budget' => push_loop budget' (i + 1) hi (pageNumbers ++ [i])
    end
  else Some pageNumbers.

(** [const [start, end] = trimmedPart.split('-').map(num =>
    parseInt(num.trim(), 10))]: the first two pieces, a missing piece is
    [undefined]. *)
Definition range_bounds (trimmedPart : jsstring) : option Z * option Z :=
  match map (fun num => parseInt (trim num)) (split dash trimmedPart) with
  | start :: end_ :: _ => (start, end_)
  | [start] => (start, None)
  | [] => (None, None)
  end.

(** The body of the loop over the parts of the text. *)
Definition process_part (totalPages : Z) (pageNumbers : list Z)
  (part : jsstring) : option (list Z) :=
  let trimmedPart := trim part in
  if includes dash trimmedPart then
    match range_bounds trimmedPart with
    | (Some start, Some end_) =>
        if (1 <=? start) && (start <=? end_) then
          let hi := Z.min end_ totalPages in
          push_loop (Z.to_nat (hi + 1 - start)) start hi pageNumbers
        else Some pageNumbers
    | _ => Some pageNumbers
    end
  else
    match parseInt trimmedPart with
    | Some pageNum =>
        if (1 <=? pageNum) && (pageNum <=? totalPages)
        then Some (pageNumbers ++ [pageNum])
        else Some pageNumbers
    | None => Some pageNumbers
    end.

(** [for (const part of parts) ...], threading the array [pageNumbers]. *)
Fixpoint for_parts (totalPages : Z) (parts : list jsstring)
  (pageNumbers : list Z) : option (list Z) :=
  match parts with
  | [] => Some pageNumbers
  | part :: rest =>
      pageNumbers' <- process_part totalPages pageNumbers part ;;
      for_parts totalPages rest pageNumbers'
  end.

(** [parsePageRanges(text, totalPages)]: the array collected over the
    parts, then [[...new Set(pageNumbers)]]. *)
Definition parsePageRanges (text : jsstring) (totalPages : Z)
  : option (list Z) :=
  pageNumbers <- for_parts totalPages (split comma text) [] ;;
  Some (set_of_array pageNumbers).

(** [start === end ? `${start}` : `${start}-${end}`]. *)
Definition render (start end_ : Z) : jsstring :=
  if start =? end_ then toString start
  else toString start ++ dash :: toString end_.

(** The loop of [formatPageRanges] over [pages[1..]], with the variables
    [start], [end] and the array [ranges]; the [push] after the loop is
    its last step. *)
Fixpoint format_loop (pages : list Z) (start end_ : Z)
  (ranges : list jsstring) : list jsstring :=
  match pages with
  | [] => ranges ++ [render start end_]
  | p :: pages' =>
      if p =? end_ + 1 then format_loop pages' start p ranges
      else format_loop pages' p p (ranges ++ [render start end_])
  end.

(** [PagePreview.formatPageRanges(pages)]. *)
Definition formatPageRanges (pages : list Z) : jsstring :=
  match pages with
  | [] => []
  | p0 :: rest => join comma (format_loop rest p0 p0 [])
  end.

(** The part of [PagePreview] the selection operations read and write:
    the page numbers [parseInt] reads from the [data-page] attributes of
    the thumbnails, in document (visual) order, the [Set] [selectedPages],
    and the value of the [pages] text field. *)
Record PagePreview : Type := mkPagePreview {
  thumbnails : list Z;
  selectedPages : list Z;
  pagesInput : jsstring
}.

(** [getSelectedPagesArray()]: the thumbnails walked in visual order,
    those whose page is in [selectedPages] are kept. *)
Definition getSelectedPagesArray (pp : PagePreview) : list Z :=
  filter (fun pageNum => set_has pageNum (selectedPages pp))
    (thumbnails pp).

(** [updatePagesInput()], on a page that has the [pages] text field. *)
Definition updatePagesInput (pp : PagePreview) : PagePreview :=
  mkPagePreview (thumbnails pp) (selectedPages pp)
    (formatPageRanges (getSelectedPagesArray pp)).

(** [togglePageSelection(pageNum, thumbnailDiv)]; the [selected] class of
    the thumbnail and the optional [onSelectionChange] callback, which
    receives [getSelectedPagesArray()], are not part of the state. *)
Definition togglePageSelection (pageNum : Z) (pp : PagePreview)
  : PagePreview :=
  let selected :=
    if set_has pageNum (selectedPages pp)
    then set_delete pageNum (selectedPages pp)
    else set_add pageNum (selectedPages pp) in
  updatePagesInput (mkPagePreview (thumbnails pp) selected (pagesInput pp)).

(** [selectAll()]: the thumbnail at position [index] adds [index + 1]. *)
Definition selectAll (pp : PagePreview) : PagePreview :=
  let selected :=
    fold_left (fun s index => set_add (Z.of_nat index + 1) s)
      (seq 0 (List.length (thumbnails pp))) (selectedPages pp) in
  updatePagesInput (mkPagePreview (thumbnails pp) selected (pagesInput pp)).

(** [deselectAll()]. *)
Definition deselectAll (pp : PagePreview) : PagePreview :=
  updatePagesInput (mkPagePreview (thumbnails pp) [] (pagesInput pp)).

(** [generateThumbnails()] after [reset()]: one thumbnail per page,
    appended in page order, nothing selected. *)
Definition loadPdf (totalPages : nat) : PagePreview :=
  mkPagePreview (map (fun k => Z.of_nat k + 1) (seq 0 totalPages)) [] [].

(** The [drop] handler of a thumbnail: the dragged thumbnail is moved
    before the target ([left] half) or before the target's next sibling;
    nothing happens when the dragged page has no thumbnail or is the
    target itself. *)
Fixpoint insert_at_target (dragging target : Z) (left : bool)
  (others : list Z) : list Z :=
  match others with
  | [] => [dragging]
  | t :: rest =>
      if t =? target then
        if left then dragging :: t :: rest else t :: dragging :: rest
      else t :: insert_at_target dragging target left rest
  end.

Definition dropThumbnail (dragging target : Z) (left : bool)
  (pp : PagePreview) : PagePreview :=
  if set_has dragging (thumbnails pp) && negb (dragging =? target) then
    updatePagesInput
      (mkPagePreview
         (insert_at_target dragging target left
            (filter (fun t => negb (t =? dragging)) (thumbnails pp)))
         (selectedPages pp) (pagesInput pp))
  else pp.

Section MergeFiles.

(** The files of the merge list are opaque. *)
Variable File : Type.
Variable undefined : File.

(** The [drop] handler of a file item from the point where [toIndex]
    is known: the adjustment for a downward move, then the two
    [splice] calls. *)
Definition reorder (fromIndex toIndex : Z) (selectedFiles : list File)
  : list File :=
  let toIndex := if fromIndex <? toIndex then toIndex - 1 else toIndex in
  if negb (fromIndex =? toIndex) then
    let itemToMove := index undefined selectedFiles fromIndex in
    splice_insert toIndex itemToMove (splice_remove fromIndex selectedFiles)
  else selectedFiles.

(** The whole [drop] handler of the file item at position [index]:
    [fromIndex] is [None] when the dragged data is not a number,
    [bottom] tells that the drop is on the lower half of the item. *)
Definition dropFile (fromIndex : option Z) (index : Z) (bottom : bool)
  (selectedFiles : list File) : list File :=
  let toIndex := if bottom then index + 1 else index in
  match fromIndex with
  | Some fromIndex => reorder fromIndex toIndex selectedFiles
  | None => selectedFiles
  end.

End MergeFiles.

Section MergeButtons.

Variable File : Type.
Variable undefined : File.

(** The [click] handler of the "move up" button of the item at [index]:
    [[a[index - 1], a[index]] = [a[index], a[index - 1]]] when
    [index > 0]. *)
Definition moveUp (index : Z) (selectedFiles : list File) : list File :=
  if 0 <? index then
    let first := Js.index undefined selectedFiles index in
    let second := Js.index undefined selectedFiles (index - 1) in
    assign undefined (assign undefined selectedFiles (index - 1) first)
      index second
  else selectedFiles.

(** The [click] handler of the "move down" button of the item at [index]:
    [[a[index + 1], a[index]] = [a[index], a[index + 1]]] when
    [index < a.length - 1]. *)
Definition moveDown (index : Z) (selectedFiles : list File) : list File :=
  if index <? Z.of_nat (List.length selectedFiles) - 1 then
    let first := Js.index undefined selectedFiles index in
    let second := Js.index undefined selectedFiles (index + 1) in
    assign undefined (assign undefined selectedFiles (index + 1) first)
      index second
  else selectedFiles.

End MergeButtons.

(** What the controllers read of a [File] of the browser. *)
Record UploadFile : Type := mkUploadFile {
  file_name : jsstring;
  file_size : Z;
  file_type : jsstring
}.

(** [file.type === 'application/pdf']. *)
Definition is_pdf (file : UploadFile) : bool :=
  string_eqb (file_type file) (lit "application/pdf").

(** The [drop] handler installed by [setupDragAndDrop]: the messages given
    to [onError], in order, and the files given to [onDrop] when it is
    called. *)
Definition containerDrop (files : list UploadFile)
  : list jsstring * option (list UploadFile) :=
  let pdfFiles := filter is_pdf files in
  if (List.length pdfFiles =? 0)%nat then
    ([lit "Only PDF files are allowed."], None)
  else
    ((if negb (List.length pdfFiles =? List.length files)%nat
      then [lit "Some non-PDF files were ignored."] else []),
     Some pdfFiles).

(** The events that change [selectedFiles] in [initMergeController]; an
    entry of the array is a file or [undefined] ([None]). *)
Inductive merge_event : Type :=
| InputChange (files : list UploadFile)
| ContainerDrop (files : list UploadFile)
| MoveUpClick (index : Z)
| MoveDownClick (index : Z)
| RemoveClick (index : Z)
| ItemDrop (fromIndex : option Z) (index : Z) (bottom : bool).

(** The handlers of [initMergeController], as a step on [selectedFiles]. *)
Definition merge_step (selectedFiles : list (option UploadFile))
  (e : merge_event) : list (option UploadFile) :=
  match e with
  | InputChange files =>
      selectedFiles ++ map Some (filter is_pdf files)
  | ContainerDrop files =>
      match snd (containerDrop files) with
      | Some pdfFiles => selectedFiles ++ map Some pdfFiles
      | None => selectedFiles
      end
  | MoveUpClick index => moveUp _ None index selectedFiles
  | MoveDownClick index => moveDown _ None index selectedFiles
  | RemoveClick index => splice_remove index selectedFiles
  | ItemDrop fromIndex index bottom =>
      dropFile _ None fromIndex index bottom selectedFiles
  end.

(** The events that change the selection of pages. *)
Inductive preview_event : Type :=
| ThumbnailClick (pageNum : Z)
| SelectAllClick
| DeselectAllClick
| ThumbnailDrop (dragging target : Z) (leftHalf : bool).

Definition preview_step (pp : PagePreview) (e : preview_event)
  : PagePreview :=
  match e with
  | ThumbnailClick pageNum => togglePageSelection pageNum pp
  | SelectAllClick => selectAll pp
  | DeselectAllClick => deselectAll pp
  | ThumbnailDrop dragging target leftHalf =>
      dropThumbnail dragging target leftHalf pp
  end.

(** [extractPages]: the 0-based indices handed to [copyPages],
    [pageRanges.map(pageNum => pageNum - 1).filter(idx => idx >= 0 &&
    idx < sourcePdf.getPageCount())]. *)
Definition pageIndices (pageRanges : list Z) (pageCount : Z) : list Z :=
  filter (fun idx => (0 <=? idx) && (idx <? pageCount))
    (map (fun pageNum => pageNum - 1) pageRanges).



(** The name of the ZIP entry of the PDF at position [index],
    [`page_${String(index + 1).padStart(3, '0')}.pdf`]. *)
Definition zipEntryName (index : nat) : jsstring :=
  lit "page_" ++ padStart 3 48%N (toString (Z.of_nat index + 1))
  ++ lit ".pdf".

(** [loadPdf(file)] on a preview already in use, for a document of
    [totalPages] pages: the thumbnails are emptied and made anew in page
    order; [selectedPages] and the text field are not touched. *)
Definition loadPdfAgain (totalPages : nat) (pp : PagePreview) : PagePreview :=
  mkPagePreview (map (fun k => Z.of_nat k + 1) (seq 0 totalPages))
    (selectedPages pp) (pagesInput pp).

(** The part of [PagePreview] the page navigation of the modal reads and
    writes. *)
Record PreviewModal : Type := mkPreviewModal {
  currentPage : Z;
  totalPages : Z
}.

(** [navigatePage(direction)]. *)
Definition navigatePage (direction : Z) (m : PreviewModal) : PreviewModal :=
  let newPage := currentPage m + direction in
  if (1 <=? newPage) && (newPage <=? totalPages m)
  then mkPreviewModal newPage (totalPages m)
  else m.

(** [updateNavigationButtons()]: the [disabled] flags of the two
    buttons. *)
Definition prevDisabled (m : PreviewModal) : bool := currentPage m <=? 1.

Definition nextDisabled (m : PreviewModal) : bool :=
  totalPages m <=? currentPage m.

End App.

(** ** src/unnamed/part_000: the earlier variant of the parser *)

Module Legacy.

(** [for (let i = start; i <= end && i <= totalPages; i++)
    pageNumbers.add(i)], on the [Set] [pageNumbers].  The parts are split
    and read as in src/js/app.js, with the same [range_bounds]. *)
Fixpoint add_loop (budget : nat) (i end_ totalPages : Z)
  (pageNumbers : list Z) : option (list Z) :=
  if (i <=? end_) && (i <=? totalPages) then
    match budget with
    | O => None
    | S budget' =>
        add_loop budget' (i + 1) end_ totalPages (set_add i pageNumbers)
    end
  else Some pageNumbers.

Definition process_part (totalPages : Z) (pageNumbers : list Z)
  (part : jsstring) : option (list Z) :=
  let trimmedPart := trim part in
  if includes dash trimmedPart then
    match App.range_bounds trimmedPart with
    | (Some start, Some end_) =>
        if (1 <=? start) && (start <=? end_) then
          add_loop (Z.to_nat (Z.min end_ totalPages + 1 - start))
            start end_ totalPages pageNumbers
        else Some pageNumbers
    | _ => Some pageNumbers
    end
  else
    match parseInt trimmedPart with
    | Some pageNum =>
        if (1 <=? pageNum) && (pageNum <=? totalPages)
        then Some (set_add pageNum pageNumbers)
        else Some pageNumbers
    | None => Some pageNumbers
    end.

Fixpoint for_parts (totalPages : Z) (parts : list jsstring)
  (pageNumbers : list Z) : option (list Z) :=
  match parts with
  | [] => Some pageNumbers
  | part :: rest =>
      pageNumbers' <- process_part totalPages pageNumbers part ;;
      for_parts totalPages rest pageNumbers'
  end.

(** [parsePageRanges(text, totalPages)]: the [Set] collected over the
    parts, then [Array.from(pageNumbers).sort((a, b) => a - b)]. *)
Definition parsePageRanges (text : jsstring) (totalPages : Z)
  : option (list Z) :=
  pageNumbers <- for_parts totalPages (split comma text) [] ;;
  Some (sort (fun a b => a - b) pageNumbers).

(** [extractPages]: the loop over [pageRanges.map(pageNum => pageNum - 1)]
    copies a page when its index passes the test; the indices copied, in
    order. *)
Fixpoint extract_loop (pageIndices : list Z) (pageCount : Z)
  (copied : list Z) : list Z :=
  match pageIndices with
  | [] => copied
  | pageIndex :: rest =>
      if (0 <=? pageIndex) && (pageIndex <? pageCount)
      then extract_loop rest pageCount (copied ++ [pageIndex])
      else extract_loop rest pageCount copied
  end.

Definition copiedIndices (pageRanges : list Z) (pageCount : Z) : list Z :=
  extract_loop (map (fun pageNum => pageNum - 1) pageRanges) pageCount [].

(** The name of the ZIP entry of the PDF at position [index],
    [`page_${index + 1}.pdf`]. *)
Definition zipEntryName (index : nat) : jsstring :=
  lit "page_" ++ toString (Z.of_nat index + 1) ++ lit ".pdf".

End Legacy.

(** ** Mathematical notions the statements use *)

(** The pages [lo], [lo + 1], ..., [hi]; empty when [hi < lo]. *)
Definition zrange (lo hi : Z) : list Z :=
  map (fun k => lo + Z.of_nat k) (seq 0 (Z.to_nat (hi + 1 - lo))).

(** The occurrences of a list that are first occurrences, at their
    positions: the element at position [i] is kept when it does not occur
    among the [i] elements before it. *)
Definition first_occurrences (l : list Z) : list Z :=
  flat_map
    (fun i =>
       match nth_error l i with
       | Some x => if existsb (Z.eqb x) (firstn i l) then [] else [x]
       | None => []
       end)
    (seq 0 (List.length l)).

(** The pages one part of the text stands for. *)
Definition part_pages (totalPages : Z) (part : jsstring) : list Z :=
  let trimmedPart := trim part in
  if includes dash trimmedPart then
    match App.range_bounds trimmedPart with
    | (Some start, Some end_) =>
        if (1 <=? start) && (start <=? end_)
        then zrange start (Z.min end_ totalPages)
        else []
    | _ => []
    end
  else
    match parseInt trimmedPart with
    | Some pageNum =>
        if (1 <=? pageNum) && (pageNum <=? totalPages) then [pageNum] else []
    | None => []
    end.

(** The expanded input: the pages of every part, in the order of the text,
    repetitions included. *)
Definition expand (text : jsstring) (totalPages : Z) : list Z :=
  flat_map (part_pages totalPages) (split comma text).

(** The validation of a part: a range needs two integers with
    [1 <= start <= end], a single page an integer within the document. *)
Definition accepted (totalPages : Z) (part : jsstring) : bool :=
  let trimmedPart := trim part in
  if includes dash trimmedPart then
    match App.range_bounds trimmedPart with
    | (Some start, Some end_) => (1 <=? start) && (start <=? end_)
    | _ => false
    end
  else
    match parseInt trimmedPart with
    | Some pageNum => (1 <=? pageNum) && (pageNum <=? totalPages)
    | None => false
    end.

(** A decomposition of a page list into runs [(start, end)]. *)
Definition run_pages (g : Z * Z) : list Z := zrange (fst g) (snd g).

Definition render_run (g : Z * Z) : jsstring := App.render (fst g) (snd g).

(** No run can be extended by the one that follows it. *)
Fixpoint maximal_runs (groups : list (Z * Z)) : Prop :=
  match groups with
  | g1 :: ((g2 :: _) as rest) => fst g2 <> snd g1 + 1 /\ maximal_runs rest
  | _ => True
  end.

(** The runs of a page list, read off from left to right. *)
Fixpoint runs_from (start end_ : Z) (pages : list Z) : list (Z * Z) :=
  match pages with
  | [] => [(start, end_)]
  | p :: pages' =>
      if p =? end_ + 1 then runs_from start p pages'
      else (start, end_) :: runs_from p p pages'
  end.

Definition runs (pages : list Z) : list (Z * Z) :=
  match pages with
  | [] => []
  | p0 :: rest => runs_from p0 p0 rest
  end.

(** The largest element of a list of page numbers. *)
Definition list_max (l : list Z) : Z := fold_right Z.max 0 l.

(** The state of the page preview after a sequence of events. *)
Definition preview_run (pp : App.PagePreview) (es : list App.preview_event)
  : App.PagePreview :=
  fold_left App.preview_step es pp.

(** The merge list after a sequence of events. *)
Definition merge_run (files : list (option App.UploadFile))
  (es : list App.merge_event) : list (option App.UploadFile) :=
  fold_left App.merge_step es files.

(** An event of the merge list that the rendered list can produce: the
    buttons belong to an item of the list, and a dragged item comes from
    the list. *)
Definition merge_event_in_list (files : list (option App.UploadFile))
  (e : App.merge_event) : Prop :=
  let len := Z.of_nat (List.length files) in
  match e with
  | App.InputChange _ | App.ContainerDrop _ => True
  | App.MoveUpClick index | App.MoveDownClick index
  | App.RemoveClick index => 0 <= index < len
  | App.ItemDrop fromIndex index _ =>
      0 <= index < len /\
      match fromIndex with
      | Some i => 0 <= i < len
      | None => True
      end
  end.

(** A sequence of such events, each one possible where it happens. *)
Fixpoint merge_events_in_list (files : list (option App.UploadFile))
  (es : list App.merge_event) : Prop :=
  match es with
  | [] => True
  | e :: es' =>
      merge_event_in_list files e /\
      merge_events_in_list (App.merge_step files e) es'
  end.

(** The entry is a file, and a PDF. *)
Definition pdf_entry (f : option App.UploadFile) : Prop :=
  exists file, f = Some file /\ App.is_pdf file = true.

(** The string starts with a white-space character. *)
Definition starts_white (s : jsstring) : bool :=
  match s with
  | [] => false
  | c :: _ => is_white c
  end.

(** A non-empty string of decimal digits. *)
Definition numeral (s : jsstring) : Prop :=
  s <> [] /\ Forall (fun c => is_digit c = true) s.

(** A preview of two pages where page 2 was selected and then dragged in
    front of page 1. *)
Definition dragged_preview : App.PagePreview :=
  App.dropThumbnail 2 1 true (App.togglePageSelection 2 (App.loadPdf 2)).

(** ** Sanity checks of the embedding on concrete inputs *)

Example parse_basic :
  App.parsePageRanges (lit "1,3,5-7") 10 = Some [1; 3; 5; 6; 7].
Proof. reflexivity. Qed.

Example parse_spaces :
  App.parsePageRanges (lit " 2 , 4 - 6 ,x") 5 = Some [2; 4; 5].
Proof. reflexivity. Qed.

Example legacy_sorted :
  Legacy.parsePageRanges (lit "5-7,1,3") 10 = Some [1; 3; 5; 6; 7].
Proof. reflexivity. Qed.

Example toString_examples :
  toString 0 = lit "0" /\ toString 907 = lit "907" /\ toString (-15) = lit "-15".
Proof. repeat split; reflexivity. Qed.

Example parseInt_examples :
  parseInt (lit " 12abc") = Some 12 /\ parseInt (lit "+7") = Some 7 /\
  parseInt (lit "-0") = Some 0 /\ parseInt (lit "abc") = None /\
  parseInt (lit "") = None.
Proof. repeat split; reflexivity. Qed.

Example format_basic :
  App.formatPageRanges [1; 2; 3; 5; 7; 8; 9] = lit "1-3,5,7-9".
Proof. reflexivity. Qed.

(** ** Ranges of pages *)

Lemma zrange_nil (lo hi : Z) : hi < lo -> zrange lo hi = [].
Proof.
  intros H. unfold zrange.
  replace (Z.to_nat (hi + 1 - lo)) with 0%nat by lia. reflexivity.
Qed.

Lemma zrange_cons (lo hi : Z) :
  lo <= hi -> zrange lo hi = lo :: zrange (lo + 1) hi.
Proof.
  intros H. unfold zrange.
  replace (Z.to_nat (hi + 1 - lo)) with (S (Z.to_nat (hi + 1 - (lo + 1))))
    by lia.
  cbn [seq map]. f_equal; [lia|].
  rewrite <- seq_shift, map_map. apply map_ext. intros k. lia.
Qed.

Lemma in_zrange (lo hi p : Z) : In p (zrange lo hi) <-> lo <= p <= hi.
Proof.
  unfold zrange. rewrite in_map_iff. split.
  - intros (k & <- & Hk). apply in_seq in Hk. lia.
  - intros H. exists (Z.to_nat (p - lo)). split; [lia|].
    apply in_seq. lia.
Qed.

Lemma zrange_single (p : Z) : zrange p p = [p].
Proof. rewrite zrange_cons by lia. now rewrite zrange_nil by lia. Qed.

Lemma zrange_snoc (lo hi : Z) :
  lo <= hi + 1 -> zrange lo (hi + 1) = zrange lo hi ++ [hi + 1].
Proof.
  intros H. unfold zrange.
  replace (Z.to_nat (hi + 1 + 1 - lo)) with (Z.to_nat (hi + 1 - lo) + 1)%nat
    by lia.
  rewrite seq_app, map_app. cbn. do 2 f_equal. lia.
Qed.

Lemma NoDup_zrange (lo hi : Z) : NoDup (zrange lo hi).
Proof.
  unfold zrange.
  generalize (Z.to_nat (hi + 1 - lo)) as n; intros n.
  assert (H : forall s, NoDup (map (fun k => lo + Z.of_nat k) (seq s n))).
  { induction n as [|n IH]; intros s; cbn; constructor.
    - rewrite in_map_iff. intros (k & Hk & Hin). apply in_seq in Hin. lia.
    - apply IH. }
  apply H.
Qed.

(** ** The counting loops run to their end *)

Lemma push_loop_spec (budget : nat) :
  forall i hi pageNumbers,
    (Z.to_nat (hi + 1 - i) <= budget)%nat ->
    App.push_loop budget i hi pageNumbers = Some (pageNumbers ++ zrange i hi).
Proof.
  induction budget as [|b IH]; intros i hi acc Hb; cbn [App.push_loop].
  - destruct (Z.leb_spec i hi); [lia|].
    now rewrite zrange_nil, app_nil_r by lia.
  - destruct (Z.leb_spec i hi).
    + rewrite IH by lia. rewrite (zrange_cons i hi) by lia.
      now rewrite <- app_assoc.
    + now rewrite zrange_nil, app_nil_r by lia.
Qed.

Lemma process_part_spec (totalPages : Z) (pageNumbers : list Z)
  (part : jsstring) :
  App.process_part totalPages pageNumbers part
  = Some (pageNumbers ++ part_pages totalPages part).
Proof.
  unfold App.process_part, part_pages.
  destruct (includes dash (trim part)).
  - destruct (App.range_bounds (trim part)) as [[s|] [e|]];
      rewrite ?app_nil_r; try reflexivity.
    destruct ((1 <=? s) && (s <=? e)); [|now rewrite app_nil_r].
    apply push_loop_spec. lia.
  - destruct (parseInt (trim part)) as [p|]; [|now rewrite app_nil_r].
    destruct ((1 <=? p) && (p <=? totalPages)); now rewrite ?app_nil_r.
Qed.

Lemma for_parts_spec (totalPages : Z) (parts : list jsstring) :
  forall pageNumbers,
    App.for_parts totalPages parts pageNumbers
    = Some (pageNumbers ++ flat_map (part_pages totalPages) parts).
Proof.
  induction parts as [|part rest IH]; intros acc; cbn [App.for_parts flat_map].
  - now rewrite app_nil_r.
  - rewrite process_part_spec, IH. now rewrite <- app_assoc.
Qed.

Lemma parsePageRanges_expand (text : jsstring) (totalPages : Z) :
  App.parsePageRanges text totalPages
  = Some (set_of_array (expand text totalPages)).
Proof.
  unfold App.parsePageRanges, expand. now rewrite for_parts_spec.
Qed.

(** ** Sets in insertion order *)

Lemma set_has_in (x : Z) (s : list Z) : set_has x s = true <-> In x s.
Proof.
  unfold set_has. rewrite existsb_exists. split.
  - intros (y & Hy & E). apply Z.eqb_eq in E. now subst.
  - intros H. exists x. split; [assumption | apply Z.eqb_refl].
Qed.

Lemma set_has_app (x : Z) (s t : list Z) :
  set_has x (s ++ t) = set_has x s || set_has x t.
Proof. unfold set_has. apply existsb_app. Qed.

Lemma in_set_add (x y : Z) (s : list Z) :
  In y (set_add x s) <-> y = x \/ In y s.
Proof.
  unfold set_add. destruct (set_has x s) eqn:E.
  - apply set_has_in in E. split; [auto | intros [->|]; auto].
  - rewrite in_app_iff. cbn. intuition.
Qed.

Lemma NoDup_set_add (x : Z) (s : list Z) : NoDup s -> NoDup (set_add x s).
Proof.
  intros H. unfold set_add. destruct (set_has x s) eqn:E; [assumption|].
  apply NoDup_app; [assumption | repeat constructor; cbn; tauto |].
  intros y Hy [<-|[]]. apply set_has_in in Hy. congruence.
Qed.

Lemma fold_set_add_in (l : list Z) :
  forall s y, In y (fold_left (fun s x => set_add x s) l s) <-> In y l \/ In y s.
Proof.
  induction l as [|x l IH]; intros s y; cbn.
  - tauto.
  - rewrite IH, in_set_add. intuition.
Qed.

Lemma fold_set_add_NoDup (l : list Z) :
  forall s, NoDup s -> NoDup (fold_left (fun s x => set_add x s) l s).
Proof.
  induction l as [|x l IH]; intros s H; cbn; [assumption|].
  apply IH. now apply NoDup_set_add.
Qed.

Lemma in_set_of_array (l : list Z) (y : Z) : In y (set_of_array l) <-> In y l.
Proof. unfold set_of_array. rewrite fold_set_add_in. cbn. tauto. Qed.

Lemma NoDup_set_of_array (l : list Z) : NoDup (set_of_array l).
Proof. apply fold_set_add_NoDup. constructor. Qed.

Lemma fold_set_add_fresh (l : list Z) :
  forall s, NoDup (s ++ l) -> fold_left (fun s x => set_add x s) l s = s ++ l.
Proof.
  induction l as [|x l IH]; intros s H; cbn.
  - now rewrite app_nil_r.
  - assert (E : set_has x s = false).
    { destruct (set_has x s) eqn:E; [|reflexivity].
      apply set_has_in in E. apply NoDup_remove_2 in H.
      exfalso. apply H. apply in_app_iff. now left. }
    unfold set_add at 2. rewrite E.
    rewrite IH; rewrite <- app_assoc; [reflexivity | exact H].
Qed.

Lemma set_of_array_NoDup (l : list Z) : NoDup l -> set_of_array l = l.
Proof. intros H. unfold set_of_array. now rewrite fold_set_add_fresh. Qed.

Lemma fold_set_add_first (l : list Z) :
  forall pre s,
    (forall x, set_has x s = existsb (Z.eqb x) pre) ->
    fold_left (fun s x => set_add x s) l s
    = s ++ flat_map
             (fun i =>
                match nth_error (pre ++ l) i with
                | Some x =>
                    if existsb (Z.eqb x) (firstn i (pre ++ l)) then [] else [x]
                | None => []
                end)
             (seq (List.length pre) (List.length l)).
Proof.
  induction l as [|x l IH]; intros pre s Hs; cbn [fold_left List.length seq flat_map].
  - now rewrite app_nil_r.
  - rewrite nth_error_app2; [|lia]. rewrite Nat.sub_diag. cbn [nth_error].
    rewrite firstn_app, Nat.sub_diag, firstn_all, firstn_O, app_nil_r.
    rewrite (IH (pre ++ [x])).
    + rewrite <- (app_assoc pre [x] l), length_app. cbn [List.length app].
      rewrite Nat.add_1_r.
      unfold set_add. rewrite <- Hs.
      destruct (set_has x s); cbn [app]; [reflexivity|].
      now rewrite <- app_assoc.
    + intros y. rewrite existsb_app. cbn. rewrite orb_false_r, <- Hs.
      unfold set_add. destruct (set_has x s) eqn:E.
      * destruct (Z.eqb_spec y x); [subst; now rewrite E | now rewrite orb_false_r].
      * rewrite set_has_app. unfold set_has at 2. cbn. now rewrite orb_false_r.
Qed.

Lemma set_of_array_first_occurrences (l : list Z) :
  set_of_array l = first_occurrences l.
Proof.
  unfold set_of_array, first_occurrences.
  now rewrite (fold_set_add_first l [] []).
Qed.

(** ** Splitting and joining *)

Lemma split_not_nil (sep : char) (s : jsstring) : split sep s <> [].
Proof.
  destruct s as [|c s]; cbn; [discriminate|].
  destruct (c =? sep)%N; [discriminate|].
  destruct (split sep s); discriminate.
Qed.

Lemma split_no_sep (sep : char) (s : jsstring) :
  includes sep s = false -> split sep s = [s].
Proof.
  induction s as [|c s IH]; cbn; [reflexivity|].
  intros H. apply orb_false_elim in H as [Hc Hs].
  rewrite N.eqb_sym, Hc, IH by assumption. reflexivity.
Qed.

Lemma split_app (sep : char) (a b : jsstring) :
  split sep (a ++ sep :: b) = split sep a ++ split sep b.
Proof.
  induction a as [|c a IH]; cbn [app split].
  - now rewrite N.eqb_refl.
  - destruct (c =? sep)%N; rewrite IH; [reflexivity|].
    destruct (split sep a) eqn:E; [now apply split_not_nil in E | reflexivity].
Qed.

Lemma split_join (sep : char) (parts : list jsstring) :
  parts <> [] ->
  Forall (fun p => includes sep p = false) parts ->
  split sep (join sep parts) = parts.
Proof.
  induction parts as [|p rest IH]; intros Hne Hall; [congruence|].
  inversion Hall as [|? ? Hp Hrest]; subst.
  destruct rest as [|q rest].
  - cbn. now apply split_no_sep.
  - change (join sep (p :: q :: rest)) with (p ++ sep :: join sep (q :: rest)).
    rewrite split_app, split_no_sep, IH by (assumption || discriminate).
    reflexivity.
Qed.

Lemma includes_app (c : char) (a b : jsstring) :
  includes c (a ++ b) = includes c a || includes c b.
Proof. apply existsb_app. Qed.

(** ** Trimming *)

Lemma trim_start_id (s : jsstring) : starts_white s = false -> trim_start s = s.
Proof. destruct s as [|c s]; cbn; [reflexivity | now intros ->]. Qed.

Lemma trim_id (s : jsstring) :
  starts_white s = false -> starts_white (rev s) = false -> trim s = s.
Proof.
  intros H1 H2. unfold trim, trim_end.
  rewrite (trim_start_id s H1), (trim_start_id _ H2). apply rev_involutive.
Qed.

(** ** Decimal numerals *)

Lemma digit_not_white (c : char) : is_digit c = true -> is_white c = false.
Proof.
  unfold is_digit, is_white. intros H.
  apply andb_prop in H as [H1 H2].
  apply N.leb_le in H1. apply N.leb_le in H2.
  cbn [existsb].
  repeat match goal with
         | |- context [(c =? ?k)%N] =>
             destruct (N.eqb_spec c k); [exfalso; lia|]
         end.
  reflexivity.
Qed.

Lemma digit_not_char (c k : char) :
  is_digit c = true -> (k < 48 \/ 57 < k)%N -> (k =? c)%N = false.
Proof.
  unfold is_digit. intros H Hk.
  apply andb_prop in H as [H1 H2].
  apply N.leb_le in H1. apply N.leb_le in H2.
  apply N.eqb_neq. lia.
Qed.

Lemma numeral_includes (s : jsstring) (k : char) :
  numeral s -> (k < 48 \/ 57 < k)%N -> includes k s = false.
Proof.
  intros [_ H] Hk. unfold includes.
  induction H as [|c s Hc _ IH]; cbn; [reflexivity|].
  now rewrite (digit_not_char c k Hc Hk), IH.
Qed.

Lemma numeral_rev (s : jsstring) : numeral s -> numeral (rev s).
Proof.
  intros [Hne H]. split.
  - intros E. apply Hne. now rewrite <- (rev_involutive s), E.
  - now apply Forall_rev.
Qed.

Lemma numeral_starts (s : jsstring) : numeral s -> starts_white s = false.
Proof.
  intros [Hne H]. destruct s as [|c s]; [reflexivity|].
  inversion H; subst. now apply digit_not_white.
Qed.

Lemma numeral_trim (s : jsstring) : numeral s -> trim s = s.
Proof.
  intros H. apply trim_id; apply numeral_starts; [|apply numeral_rev]; exact H.
Qed.

Lemma digits_prefix_numeral (s : jsstring) :
  Forall (fun c => is_digit c = true) s -> digits_prefix s = s.
Proof.
  induction 1 as [|c s Hc _ IH]; cbn; [reflexivity|]. now rewrite Hc, IH.
Qed.

Lemma parseInt_numeral (s : jsstring) :
  numeral s -> parseInt s = Some (digits_value s).
Proof.
  intros H. unfold parseInt.
  rewrite (trim_start_id s (numeral_starts s H)).
  destruct H as [Hne H]. destruct s as [|c s]; [congruence|].
  inversion H as [|? ? Hc Hs]; subst.
  assert (Ed : (c =? dash)%N = false).
  { rewrite N.eqb_sym. apply digit_not_char; [assumption | unfold dash; lia]. }
  assert (Ep : (c =? plus)%N = false).
  { rewrite N.eqb_sym. apply digit_not_char; [assumption | unfold plus; lia]. }
  rewrite Ed, Ep, (digits_prefix_numeral (c :: s) H).
  f_equal. lia.
Qed.

Lemma digits_value_snoc (ds : jsstring) (c : char) :
  digits_value (ds ++ [c]) = 10 * digits_value ds + digit_value c.
Proof. unfold digits_value. now rewrite fold_left_app. Qed.

Lemma digit_char_spec (d : Z) :
  0 <= d < 10 ->
  is_digit (digit_char d) = true /\ digit_value (digit_char d) = d.
Proof.
  intros H. unfold is_digit, digit_value, digit_char. split.
  - apply andb_true_intro. split; apply N.leb_le; lia.
  - lia.
Qed.

Lemma log2_div10 (n : Z) : 10 <= n -> Z.log2 (n / 10) < Z.log2 n.
Proof.
  intros H. apply Z.log2_lt_pow2; [apply Z.div_str_pos; lia|].
  pose proof (Z.log2_spec n ltac:(lia)) as [_ Hub].
  rewrite Z.pow_succ_r in Hub by apply Z.log2_nonneg.
  apply Z.div_lt_upper_bound; lia.
Qed.

Lemma to_digits_spec (fuel : nat) :
  forall n,
    0 <= n -> Z.log2 n < Z.of_nat fuel ->
    numeral (to_digits fuel n) /\ digits_value (to_digits fuel n) = n.
Proof.
  induction fuel as [|f IH]; intros n Hn Hf.
  - pose proof (Z.log2_nonneg n). lia.
  - cbn [to_digits]. destruct (Z.ltb_spec n 10).
    + destruct (digit_char_spec n ltac:(lia)) as [Hd Hv].
      split; [split; [discriminate | now repeat constructor]|].
      unfold digits_value. cbn [fold_left]. rewrite Hv. lia.
    + pose proof (log2_div10 n ltac:(lia)).
      destruct (IH (n / 10)) as [[Hne Hall] Hv];
        [apply Z.div_pos; lia | lia |].
      destruct (digit_char_spec (n mod 10)) as [Hd Hdv];
        [apply Z.mod_pos_bound; lia|].
      split; [split|].
      * intros E. now apply app_eq_nil in E as [_ E].
      * apply Forall_app. split; [assumption | now repeat constructor].
      * rewrite digits_value_snoc, Hv, Hdv.
        pose proof (Z.div_mod n 10). lia.
Qed.

Lemma toString_numeral (n : Z) :
  0 <= n -> numeral (toString n) /\ digits_value (toString n) = n.
Proof.
  intros H. unfold toString. destruct (Z.ltb_spec n 0); [lia|].
  apply to_digits_spec; [assumption|].
  pose proof (Z.log2_nonneg n). lia.
Qed.

Lemma parseInt_toString (n : Z) : 0 <= n -> parseInt (toString n) = Some n.
Proof.
  intros H. destruct (toString_numeral n H) as [Hnum Hv].
  now rewrite parseInt_numeral, Hv.
Qed.

(** ** The formatter and the runs of a page list *)

Lemma format_loop_runs (pages : list Z) :
  forall start end_ ranges,
    App.format_loop pages start end_ ranges
    = ranges ++ map render_run (runs_from start end_ pages).
Proof.
  induction pages as [|p pages IH]; intros s e ranges;
    cbn [App.format_loop runs_from]; [reflexivity|].
  destruct (p =? e + 1); rewrite IH; [reflexivity|].
  now rewrite <- app_assoc.
Qed.

Lemma formatPageRanges_runs (pages : list Z) :
  App.formatPageRanges pages = join comma (map render_run (runs pages)).
Proof.
  destruct pages as [|p0 rest]; [reflexivity|].
  unfold App.formatPageRanges, runs. now rewrite format_loop_runs.
Qed.

Lemma runs_from_pages (pages : list Z) :
  forall start end_,
    start <= end_ ->
    flat_map run_pages (runs_from start end_ pages)
    = zrange start end_ ++ pages.
Proof.
  induction pages as [|p pages IH]; intros s e Hse; cbn [runs_from flat_map].
  - reflexivity.
  - destruct (Z.eqb_spec p (e + 1)) as [->|Hp].
    + rewrite IH by lia. rewrite zrange_snoc by lia. now rewrite <- app_assoc.
    + cbn [flat_map]. rewrite IH by lia. now rewrite zrange_single.
Qed.

Lemma runs_pages (pages : list Z) : flat_map run_pages (runs pages) = pages.
Proof.
  destruct pages as [|p0 rest]; [reflexivity|].
  unfold runs. rewrite runs_from_pages by lia. now rewrite zrange_single.
Qed.

Lemma runs_from_ordered (pages : list Z) :
  forall start end_,
    start <= end_ ->
    Forall (fun g => fst g <= snd g) (runs_from start end_ pages).
Proof.
  induction pages as [|p pages IH]; intros s e Hse; cbn [runs_from].
  - now repeat constructor.
  - destruct (Z.eqb_spec p (e + 1)) as [->|Hp].
    + apply IH. lia.
    + constructor; [assumption | apply IH; lia].
Qed.

Lemma runs_ordered (pages : list Z) :
  Forall (fun g => fst g <= snd g) (runs pages).
Proof.
  destruct pages as [|p0 rest]; [constructor|].
  apply runs_from_ordered. lia.
Qed.

Lemma runs_from_head (pages : list Z) :
  forall start end_,
    exists e rest, runs_from start end_ pages = (start, e) :: rest.
Proof.
  induction pages as [|p pages IH]; intros s e; cbn [runs_from].
  - now exists e, [].
  - destruct (p =? e + 1); [apply IH | now eexists _, _].
Qed.

Lemma runs_from_maximal (pages : list Z) :
  forall start end_, maximal_runs (runs_from start end_ pages).
Proof.
  induction pages as [|p pages IH]; intros s e; cbn [runs_from].
  - exact I.
  - destruct (Z.eqb_spec p (e + 1)) as [->|Hp]; [apply IH|].
    specialize (IH p p).
    destruct (runs_from_head pages p p) as (e' & rest & E).
    rewrite E in *. cbn. split; assumption.
Qed.

Lemma runs_maximal (pages : list Z) : maximal_runs (runs pages).
Proof.
  destruct pages as [|p0 rest]; [exact I | apply runs_from_maximal].
Qed.

Lemma runs_not_nil (pages : list Z) : pages <> [] -> runs pages <> [].
Proof.
  destruct pages as [|p0 rest]; [congruence|]. intros _.
  unfold runs. destruct (runs_from_head rest p0 p0) as (e & r & ->).
  discriminate.
Qed.

(** ** Reading back what the formatter writes *)

Lemma starts_white_app (a b : jsstring) :
  a <> [] -> starts_white (a ++ b) = starts_white a.
Proof. destruct a; [congruence | reflexivity]. Qed.

Lemma dash_not_digit : (dash < 48 \/ 57 < dash)%N.
Proof. unfold dash. lia. Qed.

Lemma comma_not_digit : (comma < 48 \/ 57 < comma)%N.
Proof. unfold comma. lia. Qed.

Lemma range_text_trim (a b : jsstring) :
  numeral a -> numeral b -> trim (a ++ dash :: b) = a ++ dash :: b.
Proof.
  intros Ha Hb. apply trim_id.
  - rewrite starts_white_app by apply Ha. now apply numeral_starts.
  - rewrite rev_app_distr. cbn [rev]. rewrite <- app_assoc.
    apply numeral_rev in Hb.
    rewrite starts_white_app by apply Hb. now apply numeral_starts.
Qed.

Lemma range_text_bounds (a b : jsstring) :
  numeral a -> numeral b ->
  App.range_bounds (a ++ dash :: b)
  = (Some (digits_value a), Some (digits_value b)).
Proof.
  intros Ha Hb. unfold App.range_bounds.
  rewrite split_app.
  rewrite !split_no_sep by (apply numeral_includes; auto using dash_not_digit).
  cbn [map app]. rewrite !numeral_trim by assumption.
  now rewrite !parseInt_numeral by assumption.
Qed.

Lemma render_no_comma (start end_ : Z) :
  0 <= start -> 0 <= end_ -> includes comma (App.render start end_) = false.
Proof.
  intros Hs He. unfold App.render.
  destruct (toString_numeral start Hs) as [Ns _].
  destruct (toString_numeral end_ He) as [Ne _].
  destruct (start =? end_).
  - apply numeral_includes; auto using comma_not_digit.
  - rewrite includes_app. cbn.
    fold (includes comma (toString end_)).
    now rewrite !numeral_includes by auto using comma_not_digit.
Qed.

Lemma part_pages_render (totalPages start end_ : Z) :
  1 <= start <= end_ -> end_ <= totalPages ->
  part_pages totalPages (App.render start end_) = zrange start end_.
Proof.
  intros Hse Het. unfold App.render, part_pages.
  destruct (toString_numeral start ltac:(lia)) as [Ns Vs].
  destruct (toString_numeral end_ ltac:(lia)) as [Ne Ve].
  destruct (Z.eqb_spec start end_) as [<-|Hneq].
  - rewrite numeral_trim by assumption.
    rewrite numeral_includes by auto using dash_not_digit.
    rewrite parseInt_numeral, Vs by assumption.
    replace ((1 <=? start) && (start <=? totalPages)) with true
      by (symmetry; apply andb_true_intro; split; apply Z.leb_le; lia).
    now rewrite zrange_single.
  - rewrite range_text_trim by assumption.
    rewrite includes_app. cbn [includes existsb]. rewrite N.eqb_refl.
    rewrite orb_true_r. cbn [orb].
    rewrite range_text_bounds, Vs, Ve by assumption.
    replace ((1 <=? start) && (start <=? end_)) with true
      by (symmetry; apply andb_true_intro; split; apply Z.leb_le; lia).
    now rewrite Z.min_l by lia.
Qed.

Lemma list_max_ge (l : list Z) (p : Z) : In p l -> p <= list_max l.
Proof.
  unfold list_max. induction l as [|x l IH]; cbn [fold_right In]; [tauto|].
  intros [->|H]; [lia | specialize (IH H); lia].
Qed.

Lemma ascending_NoDup (l : list Z) : StronglySorted Z.lt l -> NoDup l.
Proof.
  induction 1 as [|x l _ IH Hx]; constructor; [|assumption].
  intros Hin. rewrite Forall_forall in Hx. specialize (Hx x Hin). lia.
Qed.

Lemma expand_format (pages : list Z) (totalPages : Z) :
  pages <> [] ->
  Forall (fun p => 1 <= p <= totalPages) pages ->
  expand (App.formatPageRanges pages) totalPages = pages.
Proof.
  intros Hne Hall. unfold expand. rewrite formatPageRanges_runs.
  assert (Hg : Forall (fun g => 1 <= fst g <= snd g /\ snd g <= totalPages)
                 (runs pages)).
  { pose proof (runs_ordered pages) as Ho.
    pose proof (runs_pages pages) as Hp.
    rewrite Forall_forall in *. intros g Hin. specialize (Ho g Hin).
    assert (Hf : In (fst g) pages).
    { rewrite <- Hp. apply in_flat_map. exists g. split; [assumption|].
      apply in_zrange. lia. }
    assert (Hs : In (snd g) pages).
    { rewrite <- Hp. apply in_flat_map. exists g. split; [assumption|].
      apply in_zrange. lia. }
    apply Hall in Hf. apply Hall in Hs. lia. }
  rewrite split_join.
  - rewrite <- (runs_pages pages) at 2.
    induction Hg as [|g gs Hg1 _ IH]; cbn [map flat_map]; [reflexivity|].
    rewrite IH. f_equal. unfold render_run, run_pages.
    cbv beta in Hg1. apply part_pages_render; lia.
  - intros E. apply map_eq_nil in E. now apply runs_not_nil in E.
  - apply Forall_map. eapply Forall_impl; [|exact Hg].
    intros g Hg1. cbv beta in Hg1. apply render_no_comma; lia.
Qed.

(** ** The expanded input, part by part *)

Lemma expand_app (a b : jsstring) (totalPages : Z) :
  expand (a ++ comma :: b) totalPages
  = expand a totalPages ++ expand b totalPages.
Proof. unfold expand. now rewrite split_app, flat_map_app. Qed.

Lemma expand_part (part : jsstring) (totalPages : Z) :
  includes comma part = false ->
  expand part totalPages = part_pages totalPages part.
Proof.
  intros H. unfold expand. rewrite split_no_sep by assumption.
  cbn. apply app_nil_r.
Qed.

Lemma part_pages_valid (totalPages : Z) (part : jsstring) (p : Z) :
  In p (part_pages totalPages part) -> 1 <= p <= totalPages.
Proof.
  unfold part_pages.
  destruct (includes dash (trim part)).
  - destruct (App.range_bounds (trim part)) as [[s|] [e|]]; cbn; try tauto.
    destruct (Z.leb_spec 1 s); cbn; [|tauto].
    destruct (Z.leb_spec s e); cbn; [|tauto].
    rewrite in_zrange. lia.
  - destruct (parseInt (trim part)) as [q|]; cbn; [|tauto].
    destruct (Z.leb_spec 1 q); cbn; [|tauto].
    destruct (Z.leb_spec q totalPages); cbn; [|tauto].
    intros [<-|[]]. lia.
Qed.

Lemma expand_valid (text : jsstring) (totalPages p : Z) :
  In p (expand text totalPages) -> 1 <= p <= totalPages.
Proof.
  unfold expand. rewrite in_flat_map. intros (part & _ & H).
  eapply part_pages_valid; eassumption.
Qed.

Lemma part_pages_rejected (totalPages : Z) (part : jsstring) :
  accepted totalPages part = false -> part_pages totalPages part = [].
Proof.
  unfold accepted, part_pages.
  destruct (includes dash (trim part)).
  - destruct (App.range_bounds (trim part)) as [[s|] [e|]]; try reflexivity.
    now intros ->.
  - destruct (parseInt (trim part)) as [q|]; [|reflexivity]. now intros ->.
Qed.

Lemma parse_without_part (part before after : jsstring) (totalPages : Z) :
  includes comma part = false ->
  part_pages totalPages part = [] ->
  App.parsePageRanges part totalPages = Some [] /\
  App.parsePageRanges (before ++ comma :: part ++ comma :: after) totalPages
  = App.parsePageRanges (before ++ comma :: after) totalPages /\
  App.parsePageRanges (part ++ comma :: after) totalPages
  = App.parsePageRanges after totalPages /\
  App.parsePageRanges (before ++ comma :: part) totalPages
  = App.parsePageRanges before totalPages.
Proof.
  intros Hc Hp. rewrite !parsePageRanges_expand, !expand_app.
  rewrite expand_part, Hp by assumption.
  rewrite app_nil_r. repeat split; reflexivity.
Qed.

(** ** The earlier variant collects the same pages *)

Lemma add_loop_spec (budget : nat) :
  forall i end_ totalPages pageNumbers,
    (Z.to_nat (Z.min end_ totalPages + 1 - i) <= budget)%nat ->
    Legacy.add_loop budget i end_ totalPages pageNumbers
    = Some (fold_left (fun s x => set_add x s)
              (zrange i (Z.min end_ totalPages)) pageNumbers).
Proof.
  induction budget as [|b IH]; intros i e t acc Hb; cbn [Legacy.add_loop].
  - destruct (Z.leb_spec i e), (Z.leb_spec i t); cbn [andb]; try lia;
      now rewrite zrange_nil by lia.
  - destruct (Z.leb_spec i e), (Z.leb_spec i t); cbn [andb];
      try now rewrite zrange_nil by lia.
    rewrite IH by lia. now rewrite (zrange_cons i) by lia.
Qed.

Lemma legacy_process_part_spec (totalPages : Z) (pageNumbers : list Z)
  (part : jsstring) :
  Legacy.process_part totalPages pageNumbers part
  = Some (fold_left (fun s x => set_add x s)
            (part_pages totalPages part) pageNumbers).
Proof.
  unfold Legacy.process_part, part_pages.
  destruct (includes dash (trim part)).
  - destruct (App.range_bounds (trim part)) as [[s|] [e|]]; try reflexivity.
    destruct ((1 <=? s) && (s <=? e)); [|reflexivity].
    apply add_loop_spec. lia.
  - destruct (parseInt (trim part)) as [p|]; [|reflexivity].
    now destruct ((1 <=? p) && (p <=? totalPages)).
Qed.

Lemma legacy_for_parts_spec (totalPages : Z) (parts : list jsstring) :
  forall pageNumbers,
    Legacy.for_parts totalPages parts pageNumbers
    = Some (fold_left (fun s x => set_add x s)
              (flat_map (part_pages totalPages) parts) pageNumbers).
Proof.
  induction parts as [|part rest IH]; intros acc;
    cbn [Legacy.for_parts flat_map]; [reflexivity|].
  rewrite legacy_process_part_spec, IH. now rewrite fold_left_app.
Qed.

Lemma legacy_parsePageRanges_expand (text : jsstring) (totalPages : Z) :
  Legacy.parsePageRanges text totalPages
  = Some (sort (fun a b => a - b) (set_of_array (expand text totalPages))).
Proof.
  unfold Legacy.parsePageRanges, expand. now rewrite legacy_for_parts_spec.
Qed.

Lemma sort_insert_perm (cmp : Z -> Z -> Z) (x : Z) (l : list Z) :
  Permutation (x :: l) (sort_insert cmp x l).
Proof.
  induction l as [|y l IH]; cbn; [reflexivity|].
  destruct (cmp x y <? 0); [reflexivity|].
  rewrite perm_swap. now constructor.
Qed.

Lemma sort_fold_perm (cmp : Z -> Z -> Z) (l : list Z) :
  forall acc,
    Permutation (l ++ acc)
      (fold_left (fun acc x => sort_insert cmp x acc) l acc).
Proof.
  induction l as [|x l IH]; intros acc; cbn [fold_left app]; [reflexivity|].
  rewrite <- IH. rewrite <- sort_insert_perm.
  apply Permutation_middle.
Qed.

Lemma sort_perm (cmp : Z -> Z -> Z) (l : list Z) : Permutation l (sort cmp l).
Proof.
  unfold sort. rewrite <- sort_fold_perm. now rewrite app_nil_r.
Qed.

Lemma sort_insert_sorted (x : Z) (l : list Z) :
  Sorted Z.le l -> Sorted Z.le (sort_insert (fun a b => a - b) x l).
Proof.
  induction l as [|y l IH]; intros Hs; cbn [sort_insert].
  - repeat constructor.
  - destruct (Z.ltb_spec (x - y) 0).
    + constructor; [assumption | constructor; lia].
    + inversion Hs as [|? ? Hl Hhd]; subst.
      constructor; [now apply IH|].
      destruct l as [|z l]; cbn [sort_insert]; [constructor; lia|].
      destruct (Z.ltb_spec (x - z) 0); constructor; [lia|].
      now inversion Hhd.
Qed.

Lemma sort_sorted (l : list Z) : Sorted Z.le (sort (fun a b => a - b) l).
Proof.
  unfold sort. assert (H : Sorted Z.le []) by constructor.
  revert H. generalize (@nil Z) as acc.
  induction l as [|x l IH]; intros acc H; cbn [fold_left]; [assumption|].
  apply IH. now apply sort_insert_sorted.
Qed.

(** ** Claims about the parser *)

(** C1: for every text and every totalPages, parsePageRanges returns the
    distinct valid page numbers in first-occurrence order: the result is
    the expanded input with exactly its first occurrences kept, each at its
    position, so it has no duplicates, the same pages as the expanded
    input, and only pages of the document; parse("5-7,1,3", 10) is
    [5,6,7,1,3] and parse("1,1,2", 10) is [1,2]. *)
Theorem parsePageRanges_first_occurrence_order :
  forall (text : jsstring) (totalPages : Z),
    (exists pages,
        App.parsePageRanges text totalPages = Some pages /\
        pages = first_occurrences (expand text totalPages) /\
        NoDup pages /\
        (forall p, In p pages <-> In p (expand text totalPages)) /\
        Forall (fun p => 1 <= p <= totalPages) pages) /\
    App.parsePageRanges (lit "5-7,1,3") 10 = Some [5; 6; 7; 1; 3] /\
    App.parsePageRanges (lit "1,1,2") 10 = Some [1; 2].
Proof.
  intros text totalPages. split; [|split; reflexivity].
  exists (set_of_array (expand text totalPages)).
  split; [apply parsePageRanges_expand|].
  split; [apply set_of_array_first_occurrences|].
  split; [apply NoDup_set_of_array|].
  split; [intros p; apply in_set_of_array|].
  apply Forall_forall. intros p Hp.
  apply (expand_valid text). now apply (proj1 (in_set_of_array _ p)).
Qed.

(** C2: round trip: for every non-empty ascending, duplicate-free
    sequence S of page numbers that are all at least 1, parsing the text
    formatPageRanges gives for S, with totalPages the largest element of S,
    returns S. *)
Theorem parse_format_roundtrip :
  forall S : list Z,
    S <> [] ->
    StronglySorted Z.lt S ->
    Forall (fun p => 1 <= p) S ->
    App.parsePageRanges (App.formatPageRanges S) (list_max S) = Some S.
Proof.
  intros S Hne Hasc Hpos.
  rewrite parsePageRanges_expand, expand_format.
  - f_equal. apply set_of_array_NoDup. now apply ascending_NoDup.
  - assumption.
  - rewrite Forall_forall in *. intros p Hp.
    split; [now apply Hpos | now apply list_max_ge].
Qed.

Lemma parse_format_roundtrip_witness :
  [1; 2; 3; 5; 7; 8; 9] <> [] /\
  App.parsePageRanges (App.formatPageRanges [1; 2; 3; 5; 7; 8; 9])
    (list_max [1; 2; 3; 5; 7; 8; 9]) = Some [1; 2; 3; 5; 7; 8; 9].
Proof.
  split; [discriminate|].
  apply (parse_format_roundtrip [1; 2; 3; 5; 7; 8; 9]).
  - discriminate.
  - repeat (constructor; [|repeat (constructor; [lia|]); constructor]).
    constructor.
  - repeat (constructor; [lia|]). constructor.
Defined.

Lemma run_length (g : Z * Z) :
  List.length (run_pages g) = Z.to_nat (snd g + 1 - fst g).
Proof. unfold run_pages, zrange. now rewrite length_map, length_seq. Qed.

(** C3: formatPageRanges groups the maximal consecutive runs of its input
    (each element the previous plus one), writes "start" for a run of
    length 1 and "start-end" for a run of length at least 2, and joins the
    groups with commas; format([1,2,3,5,7,8,9]) is "1-3,5,7-9", format([])
    is the empty string and format([4]) is "4".  The statement holds for
    every list of integers, the ascending duplicate-free ones included. *)
Theorem formatPageRanges_groups_runs :
  forall pages : list Z,
    (exists groups : list (Z * Z),
        flat_map run_pages groups = pages /\
        Forall (fun g => fst g <= snd g) groups /\
        maximal_runs groups /\
        Forall (fun g =>
                  (List.length (run_pages g) = 1%nat ->
                   render_run g = toString (fst g)) /\
                  ((2 <= List.length (run_pages g))%nat ->
                   render_run g
                   = toString (fst g) ++ [dash] ++ toString (snd g)))
          groups /\
        App.formatPageRanges pages = join comma (map render_run groups)) /\
    App.formatPageRanges [1; 2; 3; 5; 7; 8; 9] = lit "1-3,5,7-9" /\
    App.formatPageRanges [] = lit "" /\
    App.formatPageRanges [4] = lit "4".
Proof.
  intros pages. split; [|repeat split; reflexivity].
  exists (runs pages).
  split; [apply runs_pages|].
  split; [apply runs_ordered|].
  split; [apply runs_maximal|].
  split; [|apply formatPageRanges_runs].
  eapply Forall_impl; [|apply runs_ordered].
  intros [s e] Hse. cbn [fst snd] in Hse.
  rewrite run_length. unfold render_run, App.render. cbn [fst snd].
  split; intros Hlen.
  - destruct (Z.eqb_spec s e); [reflexivity | lia].
  - destruct (Z.eqb_spec s e); [lia | reflexivity].
Qed.

(** C4: an accepted range token (both sides parse as integers, start at
    least 1, start at most end) is expanded to exactly the pages start
    through min(end, totalPages): these pages are appended to the array,
    the pages beyond totalPages are left out and the parse goes on; a text
    made of such a token alone parses to that list, and parse("8-12", 10)
    is [8,9,10]. *)
Theorem range_token_expansion :
  forall (part : jsstring) (totalPages start end_ : Z) (pageNumbers : list Z),
    includes dash (trim part) = true ->
    App.range_bounds (trim part) = (Some start, Some end_) ->
    1 <= start ->
    start <= end_ ->
    App.process_part totalPages pageNumbers part
    = Some (pageNumbers ++ zrange start (Z.min end_ totalPages)) /\
    (forall p, In p (zrange start (Z.min end_ totalPages))
               <-> start <= p <= end_ /\ p <= totalPages) /\
    (includes comma part = false ->
     App.parsePageRanges part totalPages
     = Some (zrange start (Z.min end_ totalPages))) /\
    App.parsePageRanges (lit "8-12") 10 = Some [8; 9; 10].
Proof.
  intros part totalPages s e acc Hd Hb H1 Hse.
  assert (Hp : part_pages totalPages part = zrange s (Z.min e totalPages)).
  { unfold part_pages. rewrite Hd, Hb.
    destruct (Z.leb_spec 1 s); [|lia].
    destruct (Z.leb_spec s e); [|lia]. reflexivity. }
  split; [now rewrite process_part_spec, Hp|].
  split; [intros p; rewrite in_zrange; lia|].
  split; [|reflexivity].
  intros Hc. rewrite parsePageRanges_expand, expand_part, Hp by assumption.
  f_equal. apply set_of_array_NoDup, NoDup_zrange.
Qed.

Lemma range_token_expansion_witness :
  App.process_part 10 [] (lit "8-12") = Some ([] ++ zrange 8 (Z.min 12 10)) /\
  App.parsePageRanges (lit "8-12") 10 = Some (zrange 8 (Z.min 12 10)).
Proof.
  destruct (range_token_expansion (lit "8-12") 10 8 12 [])
    as (Hpart & _ & Hparse & _);
    [reflexivity | reflexivity | lia | lia |].
  split; [exact Hpart | apply Hparse; reflexivity].
Defined.

(** C5: a range token whose start exceeds its end contributes no pages
    and raises no error: the array is left as it was and the parse goes
    on, so the text parses as it does without the token; parse("3-1", 10)
    is empty. *)
Theorem inverted_range_dropped :
  forall (part before after : jsstring) (totalPages start end_ : Z)
         (pageNumbers : list Z),
    includes comma part = false ->
    includes dash (trim part) = true ->
    App.range_bounds (trim part) = (Some start, Some end_) ->
    end_ < start ->
    App.process_part totalPages pageNumbers part = Some pageNumbers /\
    App.parsePageRanges part totalPages = Some [] /\
    App.parsePageRanges (before ++ comma :: part ++ comma :: after) totalPages
    = App.parsePageRanges (before ++ comma :: after) totalPages /\
    App.parsePageRanges (part ++ comma :: after) totalPages
    = App.parsePageRanges after totalPages /\
    App.parsePageRanges (before ++ comma :: part) totalPages
    = App.parsePageRanges before totalPages /\
    App.parsePageRanges (lit "3-1") 10 = Some [].
Proof.
  intros part before after totalPages s e acc Hc Hd Hb Hlt.
  assert (Hp : part_pages totalPages part = []).
  { unfold part_pages. rewrite Hd, Hb.
    destruct (Z.leb_spec s e); [lia|]. now rewrite andb_false_r. }
  split; [now rewrite process_part_spec, Hp, app_nil_r|].
  destruct (parse_without_part part before after totalPages Hc Hp)
    as (E1 & E2 & E3 & E4).
  repeat split; assumption || reflexivity.
Qed.

Lemma inverted_range_dropped_witness :
  App.process_part 10 [4] (lit " 3 - 1 ") = Some [4] /\
  App.parsePageRanges (lit "2, 3 - 1 ,5") 10
  = App.parsePageRanges (lit "2,5") 10.
Proof.
  destruct (inverted_range_dropped (lit " 3 - 1 ") (lit "2") (lit "5")
              10 3 1 [4])
    as (Hpart & _ & Hmid & _);
    [reflexivity | reflexivity | reflexivity | lia |].
  split; [exact Hpart | exact Hmid].
Defined.

(** C9: parsePageRanges never raises: for every text and every totalPages
    its loops run to their end and it returns a (possibly empty) list;
    parse("", 10) and parse("abc", 10) are both empty, and a token that
    fails validation contributes nothing and does not stop the parse of the
    rest.  formatPageRanges is a single pass over its argument and returns
    a string for every list, the empty string for the empty list. *)
Theorem parse_and_format_total :
  forall (text : jsstring) (totalPages : Z),
    (exists pages, App.parsePageRanges text totalPages = Some pages) /\
    (forall part before after : jsstring,
        includes comma part = false ->
        accepted totalPages part = false ->
        (forall pageNumbers,
            App.process_part totalPages pageNumbers part = Some pageNumbers) /\
        App.parsePageRanges part totalPages = Some [] /\
        App.parsePageRanges (before ++ comma :: part ++ comma :: after)
          totalPages
        = App.parsePageRanges (before ++ comma :: after) totalPages /\
        App.parsePageRanges (part ++ comma :: after) totalPages
        = App.parsePageRanges after totalPages /\
        App.parsePageRanges (before ++ comma :: part) totalPages
        = App.parsePageRanges before totalPages) /\
    App.parsePageRanges (lit "") 10 = Some [] /\
    App.parsePageRanges (lit "abc") 10 = Some [] /\
    (forall pages, App.formatPageRanges pages = [] <-> pages = []).
Proof.
  intros text totalPages.
  split; [eexists; apply parsePageRanges_expand|].
  split; [|split; [reflexivity|split; [reflexivity|]]].
  - intros part before after Hc Hacc.
    pose proof (part_pages_rejected totalPages part Hacc) as Hp.
    split; [intros acc; now rewrite process_part_spec, Hp, app_nil_r|].
    now apply parse_without_part.
  - intros pages. split; [|now intros ->].
    destruct pages as [|p0 rest]; [reflexivity|].
    rewrite formatPageRanges_runs. unfold runs.
    destruct (runs_from_head rest p0 p0) as (e & gs & ->).
    cbn [map]. intros E. exfalso.
    assert (Hr : render_run (p0, e) <> []).
    { unfold render_run, App.render, toString. cbn [fst snd].
      destruct (p0 =? e), (p0 <? 0); cbn [to_digits];
        try discriminate;
        destruct (_ <? 10); try discriminate;
        intros F; apply app_eq_nil in F; destruct F; discriminate. }
    destruct (map render_run gs); cbn [join] in E; [contradiction|].
    apply app_eq_nil in E. destruct E. contradiction.
Qed.

Lemma parse_and_format_total_witness :
  App.parsePageRanges (lit "1,0-x,2") 10 = App.parsePageRanges (lit "1,2") 10.
Proof.
  destruct (parse_and_format_total (lit "1,0-x,2") 10) as (_ & Hdrop & _).
  destruct (Hdrop (lit "0-x") (lit "1") (lit "2")) as (_ & _ & Hmid & _);
    [reflexivity | reflexivity |].
  exact Hmid.
Defined.

(** C10: for every text and every totalPages the parser of src/js/app.js
    and the parser of src/unnamed/part_000 return lists with exactly the
    same page numbers: each is a rearrangement of the other, the second
    being the first one sorted in ascending order. *)
Theorem parser_variants_same_pages :
  forall (text : jsstring) (totalPages : Z),
    exists pages sorted : list Z,
      App.parsePageRanges text totalPages = Some pages /\
      Legacy.parsePageRanges text totalPages = Some sorted /\
      sorted = sort (fun a b => a - b) pages /\
      Sorted Z.le sorted /\
      (forall p, In p pages <-> In p sorted) /\
      Permutation pages sorted.
Proof.
  intros text totalPages.
  exists (set_of_array (expand text totalPages)).
  exists (sort (fun a b => a - b) (set_of_array (expand text totalPages))).
  split; [apply parsePageRanges_expand|].
  split; [apply legacy_parsePageRanges_expand|].
  split; [reflexivity|].
  split; [apply sort_sorted|].
  pose proof (sort_perm (fun a b => a - b)
                (set_of_array (expand text totalPages))) as HP.
  split; [|exact HP].
  intros p. split; apply Permutation_in; [|symmetry]; exact HP.
Qed.

(** ** Claims about the selection of pages *)

Lemma set_has_delete (x y : Z) (s : list Z) :
  set_has y (set_delete x s) = set_has y s && negb (y =? x).
Proof.
  unfold set_has, set_delete. induction s as [|z s IH]; cbn; [reflexivity|].
  destruct (Z.eqb_spec z x) as [->|Hz]; cbn; rewrite IH.
  - destruct (Z.eqb_spec y x); cbn; [now rewrite andb_false_r | reflexivity].
  - destruct (Z.eqb_spec y z) as [->|]; cbn; [|reflexivity].
    destruct (Z.eqb_spec z x); [contradiction | reflexivity].
Qed.

Lemma set_has_add (x y : Z) (s : list Z) :
  set_has y (set_add x s) = (y =? x) || set_has y s.
Proof.
  unfold set_add. destruct (set_has x s) eqn:E.
  - destruct (Z.eqb_spec y x) as [->|]; [now rewrite E | reflexivity].
  - rewrite set_has_app. unfold set_has at 2. cbn.
    rewrite orb_false_r. apply orb_comm.
Qed.

Lemma toggle_selected (pageNum : Z) (pp : App.PagePreview) :
  App.selectedPages (App.togglePageSelection pageNum pp)
  = if set_has pageNum (App.selectedPages pp)
    then set_delete pageNum (App.selectedPages pp)
    else set_add pageNum (App.selectedPages pp).
Proof. reflexivity. Qed.

Lemma toggle_twice_has (pageNum q : Z) (pp : App.PagePreview) :
  set_has q
    (App.selectedPages
       (App.togglePageSelection pageNum (App.togglePageSelection pageNum pp)))
  = set_has q (App.selectedPages pp).
Proof.
  rewrite !toggle_selected.
  destruct (set_has pageNum (App.selectedPages pp)) eqn:E; cbv iota.
  - assert (C : set_has pageNum (set_delete pageNum (App.selectedPages pp))
                = false)
      by (rewrite set_has_delete, Z.eqb_refl; apply andb_false_r).
    rewrite C, set_has_add, set_has_delete.
    destruct (Z.eqb_spec q pageNum) as [->|]; cbn;
      [now rewrite E | now rewrite andb_true_r].
  - assert (C : set_has pageNum (set_add pageNum (App.selectedPages pp))
                = true)
      by (rewrite set_has_add, Z.eqb_refl; reflexivity).
    rewrite C, set_has_delete, set_has_add.
    destruct (Z.eqb_spec q pageNum) as [->|]; cbn;
      [now rewrite E | now rewrite andb_true_r].
Qed.

(** C7: for every state of the page preview and every page p, toggling p
    twice restores the selection: every page is selected after the pair
    exactly when it was before, the thumbnails are where they were, and the
    ordered list of selected pages is the one from before the pair; the
    text field shows that list. *)
Theorem toggle_twice_restores :
  forall (pp : App.PagePreview) (p : Z),
    let pp' := App.togglePageSelection p (App.togglePageSelection p pp) in
    (forall q, set_has q (App.selectedPages pp')
               = set_has q (App.selectedPages pp)) /\
    App.thumbnails pp' = App.thumbnails pp /\
    App.getSelectedPagesArray pp' = App.getSelectedPagesArray pp /\
    App.pagesInput pp'
    = App.formatPageRanges (App.getSelectedPagesArray pp).
Proof.
  intros pp p pp'.
  assert (H : App.getSelectedPagesArray pp' = App.getSelectedPagesArray pp).
  { unfold App.getSelectedPagesArray.
    change (App.thumbnails pp') with (App.thumbnails pp).
    apply filter_ext. intros q. apply toggle_twice_has. }
  split; [intros q; apply toggle_twice_has|].
  split; [reflexivity|].
  split; [exact H|].
  rewrite <- H. reflexivity.
Qed.

Lemma selectAll_has (pp : App.PagePreview) (p : Z) :
  set_has p (App.selectedPages (App.selectAll pp)) = true
  <-> 1 <= p <= Z.of_nat (List.length (App.thumbnails pp))
      \/ set_has p (App.selectedPages pp) = true.
Proof.
  unfold App.selectAll, App.updatePagesInput. cbn [App.selectedPages].
  generalize (App.selectedPages pp) as s.
  generalize (List.length (App.thumbnails pp)) as n.
  intros n. induction n as [|n IH]; intros s.
  - cbn. split; [tauto | intros [H|H]; [lia | exact H]].
  - rewrite seq_S, fold_left_app. cbn [fold_left Nat.add].
    rewrite set_has_add. rewrite orb_true_iff, IH, Z.eqb_eq.
    destruct (set_has p s); intuition lia.
Qed.

(** C8 as the code has it: in every state whose thumbnails carry page
    numbers of the document (1 up to the number of thumbnails), selectAll
    selects every page of the document and the ordered selection becomes
    the thumbnails in their present visual order, which is the ascending
    sequence 1..n when the thumbnails stand in ascending order; after a
    following deselectAll the selection is empty, whatever the state. *)
Theorem selectAll_then_deselectAll :
  forall (pp : App.PagePreview) (n : nat),
    List.length (App.thumbnails pp) = n ->
    Forall (fun t => 1 <= t <= Z.of_nat n) (App.thumbnails pp) ->
    (forall p, 1 <= p <= Z.of_nat n ->
               set_has p (App.selectedPages (App.selectAll pp)) = true) /\
    App.getSelectedPagesArray (App.selectAll pp) = App.thumbnails pp /\
    (App.thumbnails pp = zrange 1 (Z.of_nat n) ->
     App.getSelectedPagesArray (App.selectAll pp) = zrange 1 (Z.of_nat n)) /\
    App.selectedPages (App.deselectAll (App.selectAll pp)) = [] /\
    App.getSelectedPagesArray (App.deselectAll (App.selectAll pp)) = [].
Proof.
  intros pp n Hlen Hall.
  assert (Hsel : forall p, 1 <= p <= Z.of_nat n ->
                   set_has p (App.selectedPages (App.selectAll pp)) = true).
  { intros p Hp. apply selectAll_has. left. now rewrite Hlen. }
  assert (Hall' : App.getSelectedPagesArray (App.selectAll pp)
                  = App.thumbnails pp).
  { unfold App.getSelectedPagesArray.
    change (App.thumbnails (App.selectAll pp)) with (App.thumbnails pp).
    clear Hlen. induction Hall as [|t ts Ht _ IH]; cbn [filter]; [reflexivity|].
    now rewrite (Hsel t Ht), IH. }
  split; [exact Hsel|].
  split; [exact Hall'|].
  split; [intros E; now rewrite Hall'|].
  split; [reflexivity|].
  change (filter (fun _ : Z => false) (App.thumbnails pp) = []).
  generalize (App.thumbnails pp) as ts.
  induction ts as [|t ts IH]; [reflexivity | exact IH].
Qed.

Lemma selectAll_then_deselectAll_witness :
  App.getSelectedPagesArray
    (App.selectAll (App.togglePageSelection 3 (App.loadPdf 5)))
  = [1; 2; 3; 4; 5] /\
  App.getSelectedPagesArray
    (App.deselectAll
       (App.selectAll (App.togglePageSelection 3 (App.loadPdf 5))))
  = [].
Proof.
  destruct (selectAll_then_deselectAll
              (App.togglePageSelection 3 (App.loadPdf 5)) 5)
    as (_ & Hall & _ & _ & Hnone);
    [reflexivity | repeat (constructor; [cbn; lia|]); constructor |].
  split; [exact Hall | exact Hnone].
Defined.

(** C8, refuted as stated: two pages, page 2 dragged in front of page 1,
    then selectAll: the ordered selection is [2,1], not the ascending
    sequence [1,2]; the set selectedPages, which held page 2 before, lists
    [2,1] as well. *)
Lemma selectAll_not_ascending :
  App.thumbnails dragged_preview = [2; 1] /\
  App.getSelectedPagesArray (App.selectAll dragged_preview) = [2; 1] /\
  App.selectedPages (App.selectAll dragged_preview) = [2; 1] /\
  App.getSelectedPagesArray (App.selectAll dragged_preview) <> zrange 1 2 /\
  App.selectedPages (App.selectAll dragged_preview) <> zrange 1 2.
Proof. repeat split; try reflexivity; discriminate. Qed.

(** ** Claims about the order of the files to merge *)

Section Reorder.

Variable File : Type.
Variable undefined : File.

Lemma splice_start_in_range (len i : Z) :
  0 <= i <= len -> splice_start len i = Z.to_nat i.
Proof.
  intros H. unfold splice_start. destruct (Z.ltb_spec i 0); lia.
Qed.

Lemma reorder_in_range (files : list File) (fromIndex toIndex : Z) :
  0 <= fromIndex < Z.of_nat (List.length files) ->
  0 <= toIndex <= Z.of_nat (List.length files) ->
  let target := if fromIndex <? toIndex then toIndex - 1 else toIndex in
  let others := firstn (Z.to_nat fromIndex) files
                ++ skipn (S (Z.to_nat fromIndex)) files in
  App.reorder File undefined fromIndex toIndex files
  = firstn (Z.to_nat target) others
    ++ nth (Z.to_nat fromIndex) files undefined
    :: skipn (Z.to_nat target) others.
Proof.
  intros Hf Ht target others. unfold App.reorder. fold target.
  assert (Hlen : List.length others = (List.length files - 1)%nat).
  { unfold others. rewrite length_app, length_firstn, length_skipn. lia. }
  assert (Htarget : 0 <= target <= Z.of_nat (List.length others)).
  { unfold target. destruct (Z.ltb_spec fromIndex toIndex); lia. }
  assert (Hrem : splice_remove fromIndex files = others).
  { unfold splice_remove. now rewrite splice_start_in_range by lia. }
  assert (Hidx : index undefined files fromIndex
                 = nth (Z.to_nat fromIndex) files undefined).
  { unfold index. destruct (Z.ltb_spec fromIndex 0); [lia | reflexivity]. }
  destruct (Z.eqb_spec fromIndex target) as [E|E]; cbn [negb].
  - rewrite <- E. unfold others.
    rewrite firstn_app, firstn_firstn, Nat.min_id, length_firstn.
    replace (Z.to_nat fromIndex
             - Nat.min (Z.to_nat fromIndex) (List.length files))%nat
      with 0%nat by lia.
    rewrite firstn_O, app_nil_r.
    rewrite skipn_app, length_firstn.
    replace (Z.to_nat fromIndex
             - Nat.min (Z.to_nat fromIndex) (List.length files))%nat
      with 0%nat by lia.
    rewrite skipn_O.
    rewrite (skipn_all2 (n := Z.to_nat fromIndex))
      by (rewrite length_firstn; lia).
    cbn [app].
    rewrite <- (firstn_skipn (Z.to_nat fromIndex) files) at 1.
    f_equal.
    assert (Hn : (Z.to_nat fromIndex < List.length files)%nat) by lia.
    revert Hn. generalize (Z.to_nat fromIndex) as k. clear.
    induction files as [|x l IH]; intros k Hk; [cbn in Hk; lia|].
    destruct k as [|k]; [reflexivity|].
    cbn [skipn nth]. cbn in Hk. apply IH. lia.
  - rewrite Hrem, Hidx. unfold splice_insert.
    now rewrite splice_start_in_range by lia.
Qed.

End Reorder.

(** C6 as the code has it: with both indices inside the list, reorder
    removes the element at fromIndex and inserts it at toIndex, where
    toIndex is first lowered by one when fromIndex < toIndex; so
    reorder(fromIndex=0, toIndex=2) on [A,B,C,D] yields [B,A,C,D], and
    [B,C,A,D] is what toIndex=3 yields, the drop on the lower half of the
    item at position 2. *)
Theorem reorder_removes_then_inserts :
  forall (File : Type) (undefined : File) (files : list File)
         (fromIndex toIndex : Z),
    0 <= fromIndex < Z.of_nat (List.length files) ->
    0 <= toIndex <= Z.of_nat (List.length files) ->
    let target := if fromIndex <? toIndex then toIndex - 1 else toIndex in
    let others := firstn (Z.to_nat fromIndex) files
                  ++ skipn (S (Z.to_nat fromIndex)) files in
    App.reorder File undefined fromIndex toIndex files
    = firstn (Z.to_nat target) others
      ++ nth (Z.to_nat fromIndex) files undefined
      :: skipn (Z.to_nat target) others /\
    App.reorder string "undefined"%string 0 2 ["A"; "B"; "C"; "D"]%string
    = ["B"; "A"; "C"; "D"]%string /\
    App.reorder string "undefined"%string 0 3 ["A"; "B"; "C"; "D"]%string
    = ["B"; "C"; "A"; "D"]%string /\
    App.dropFile string "undefined"%string (Some 0) 2 true
      ["A"; "B"; "C"; "D"]%string
    = ["B"; "C"; "A"; "D"]%string.
Proof.
  intros File undefined files fromIndex toIndex Hf Ht target others.
  split; [now apply reorder_in_range|].
  repeat split; reflexivity.
Qed.

Lemma reorder_removes_then_inserts_witness :
  App.reorder string "undefined"%string 2 0 ["A"; "B"; "C"; "D"]%string
  = ["C"; "A"; "B"; "D"]%string.
Proof.
  destruct (reorder_removes_then_inserts string "undefined"%string
              ["A"; "B"; "C"; "D"]%string 2 0) as (H & _);
    [cbn; lia | cbn; lia |].
  exact H.
Defined.

(** C6, refuted as stated: reorder(fromIndex=0, toIndex=2) on [A,B,C,D]
    does not yield [B,C,A,D]. *)
Lemma reorder_example_differs :
  App.reorder string "undefined"%string 0 2 ["A"; "B"; "C"; "D"]%string
  <> ["B"; "C"; "A"; "D"]%string.
Proof. discriminate. Qed.

(** ** Further properties of the parser *)

Lemma parse_empty_text (totalPages : Z) :
  App.parsePageRanges [] totalPages = Some [].
Proof. reflexivity. Qed.

(** What the formatter writes for a duplicate-free list of pages of the
    document is read back as that list, whatever the order of the pages:
    the order given by dragging thumbnails survives the text field. *)
Theorem parse_format_any_order :
  forall (pages : list Z) (totalPages : Z),
    NoDup pages ->
    Forall (fun p => 1 <= p <= totalPages) pages ->
    App.parsePageRanges (App.formatPageRanges pages) totalPages = Some pages.
Proof.
  intros pages totalPages Hnd Hall.
  destruct pages as [|p0 rest]; [apply parse_empty_text|].
  rewrite parsePageRanges_expand, expand_format by (assumption || discriminate).
  f_equal. now apply set_of_array_NoDup.
Qed.

Lemma parse_format_any_order_witness :
  App.formatPageRanges [4; 5; 1; 3; 2] = lit "4-5,1,3,2" /\
  App.parsePageRanges (App.formatPageRanges [4; 5; 1; 3; 2]) 6
  = Some [4; 5; 1; 3; 2].
Proof.
  split; [reflexivity|].
  apply (parse_format_any_order [4; 5; 1; 3; 2] 6).
  - repeat (constructor; [cbn; intuition lia|]). constructor.
  - repeat (constructor; [lia|]). constructor.
Defined.

Lemma filter_le_zrange (n : Z) (k : nat) :
  forall lo hi,
    Z.to_nat (hi + 1 - lo) = k ->
    filter (fun p => p <=? n) (zrange lo hi) = zrange lo (Z.min hi n).
Proof.
  induction k as [|k IH]; intros lo hi Hk.
  - now rewrite !zrange_nil by lia.
  - rewrite (zrange_cons lo hi) by lia. cbn [filter].
    rewrite (IH (lo + 1) hi) by lia.
    destruct (Z.leb_spec lo n).
    + now rewrite (zrange_cons lo (Z.min hi n)) by lia.
    + now rewrite !zrange_nil by lia.
Qed.

Lemma part_pages_clip (n m : Z) (part : jsstring) :
  n <= m ->
  part_pages n part = filter (fun p => p <=? n) (part_pages m part).
Proof.
  intros Hnm. unfold part_pages.
  destruct (includes dash (trim part)).
  - destruct (App.range_bounds (trim part)) as [[s|] [e|]]; try reflexivity.
    destruct ((1 <=? s) && (s <=? e)); [|reflexivity].
    rewrite (filter_le_zrange n _ s (Z.min e m) eq_refl).
    f_equal. lia.
  - destruct (parseInt (trim part)) as [p|]; [|reflexivity].
    destruct (Z.leb_spec 1 p); cbn [andb]; [|reflexivity].
    destruct (Z.leb_spec p n), (Z.leb_spec p m); cbn [filter]; try lia;
      try reflexivity.
    + destruct (Z.leb_spec p n); [reflexivity | lia].
    + destruct (Z.leb_spec p n); [lia | reflexivity].
Qed.

Lemma flat_map_filter {A B : Type} (f : A -> list B) (g : B -> bool)
  (l : list A) :
  filter g (flat_map f l) = flat_map (fun a => filter g (f a)) l.
Proof.
  induction l as [|a l IH]; cbn; [reflexivity|].
  now rewrite filter_app, IH.
Qed.

Lemma expand_clip (text : jsstring) (n m : Z) :
  n <= m -> expand text n = filter (fun p => p <=? n) (expand text m).
Proof.
  intros Hnm. unfold expand. rewrite flat_map_filter.
  apply flat_map_ext. intros part. now apply part_pages_clip.
Qed.

Lemma set_has_filter (f : Z -> bool) (x : Z) (s : list Z) :
  f x = true -> set_has x (filter f s) = set_has x s.
Proof.
  intros Hx. unfold set_has. induction s as [|y s IH]; cbn; [reflexivity|].
  destruct (Z.eqb_spec x y) as [<-|Hxy].
  - rewrite Hx. cbn. now rewrite Z.eqb_refl.
  - destruct (f y); cbn; [|exact IH].
    destruct (Z.eqb_spec x y); [contradiction | exact IH].
Qed.

Lemma fold_set_add_filter (f : Z -> bool) (l : list Z) :
  forall s,
    fold_left (fun s x => set_add x s) (filter f l) (filter f s)
    = filter f (fold_left (fun s x => set_add x s) l s).
Proof.
  induction l as [|x l IH]; intros s; cbn [filter fold_left]; [reflexivity|].
  destruct (f x) eqn:Hx; cbn [fold_left]; rewrite <- IH; f_equal.
  - unfold set_add. rewrite set_has_filter by assumption.
    destruct (set_has x s); [reflexivity|].
    rewrite filter_app. cbn. now rewrite Hx.
  - unfold set_add. destruct (set_has x s); [reflexivity|].
    rewrite filter_app. cbn. now rewrite Hx, app_nil_r.
Qed.

Lemma set_of_array_filter (f : Z -> bool) (l : list Z) :
  set_of_array (filter f l) = filter f (set_of_array l).
Proof. unfold set_of_array. now rewrite <- fold_set_add_filter. Qed.

(** Lowering totalPages only removes the pages above the new bound: the
    parse for a smaller document is the parse for a larger one without the
    pages the smaller document lacks, in the same order. *)
Theorem parse_smaller_document :
  forall (text : jsstring) (n m : Z) (pages : list Z),
    n <= m ->
    App.parsePageRanges text m = Some pages ->
    App.parsePageRanges text n = Some (filter (fun p => p <=? n) pages).
Proof.
  intros text n m pages Hnm Hm.
  rewrite parsePageRanges_expand in *. injection Hm as <-.
  now rewrite (expand_clip text n m Hnm), set_of_array_filter.
Qed.

Lemma parse_smaller_document_witness :
  App.parsePageRanges (lit "9,2-4,7,3-8") 5 = Some [2; 3; 4; 5].
Proof.
  apply (parse_smaller_document (lit "9,2-4,7,3-8") 5 10
           [9; 2; 3; 4; 7; 5; 6; 8]); [lia | reflexivity].
Defined.

Lemma parse_result_valid (text : jsstring) (totalPages : Z)
  (pages : list Z) :
  App.parsePageRanges text totalPages = Some pages ->
  NoDup pages /\ Forall (fun p => 1 <= p <= totalPages) pages.
Proof.
  rewrite parsePageRanges_expand. intros H. injection H as <-.
  split; [apply NoDup_set_of_array|].
  apply Forall_forall. intros p Hp.
  apply (expand_valid text). now apply (proj1 (in_set_of_array _ p)).
Qed.

Lemma zrange_length (lo hi : Z) :
  List.length (zrange lo hi) = Z.to_nat (hi + 1 - lo).
Proof. unfold zrange. now rewrite length_map, length_seq. Qed.

(** The parser never returns more pages than the document has, and
    returns no page at all when totalPages is not positive (the value the
    split controller keeps after a failed page count is 0). *)
Theorem parse_at_most_totalPages :
  forall (text : jsstring) (totalPages : Z) (pages : list Z),
    App.parsePageRanges text totalPages = Some pages ->
    Z.of_nat (List.length pages) <= Z.max 0 totalPages /\
    (totalPages <= 0 -> pages = []).
Proof.
  intros text totalPages pages H.
  destruct (parse_result_valid text totalPages pages H)
    as (Hnd & Hrange).
  assert (Hlen : (List.length pages
                  <= List.length (zrange 1 totalPages))%nat).
  { apply NoDup_incl_length; [assumption|].
    intros p Hp. apply in_zrange. rewrite Forall_forall in Hrange.
    now apply Hrange. }
  rewrite zrange_length in Hlen. split; [lia|].
  intros Hz. destruct pages; [reflexivity | cbn in Hlen; lia].
Qed.

Lemma parse_at_most_totalPages_witness :
  Z.of_nat (List.length [1; 2; 3; 4; 5; 6; 7]) <= Z.max 0 7.
Proof.
  apply (parse_at_most_totalPages (lit "1-100") 7 [1; 2; 3; 4; 5; 6; 7]).
  reflexivity.
Defined.






(** A part that begins with '-' once trimmed, such as a negative number
    or a range without a start, is rejected by both variants of the
    parser: the pages collected so far stay as they are. *)
Theorem leading_dash_rejected :
  forall (part rest : jsstring) (totalPages : Z) (pageNumbers : list Z),
    trim part = dash :: rest ->
    accepted totalPages part = false /\
    App.process_part totalPages pageNumbers part = Some pageNumbers /\
    Legacy.process_part totalPages pageNumbers part = Some pageNumbers.
Proof.
  intros part rest totalPages acc Ht.
  assert (Hb : fst (App.range_bounds (dash :: rest)) = None).
  { unfold App.range_bounds. cbn [split]. rewrite N.eqb_refl. cbn [map].
    change (parseInt (trim [])) with (@None Z).
    now destruct (map _ (split dash rest)). }
  assert (Hacc : accepted totalPages part = false).
  { unfold accepted. rewrite Ht. cbn [includes existsb]. rewrite N.eqb_refl.
    cbn [orb]. destruct (App.range_bounds (dash :: rest)) as [s e].
    cbn [fst] in Hb. now subst s. }
  pose proof (part_pages_rejected totalPages part Hacc) as Hp.
  split; [exact Hacc|].
  rewrite process_part_spec, legacy_process_part_spec, Hp, app_nil_r.
  split; reflexivity.
Qed.

Lemma leading_dash_rejected_witness :
  accepted 10 (lit " -5 ") = false /\
  App.process_part 10 [2] (lit " -5 ") = Some [2].
Proof.
  destruct (leading_dash_rejected (lit " -5 ") (lit "5") 10 [2])
    as (Hacc & Happ & _); [reflexivity|].
  split; [exact Hacc | exact Happ].
Defined.

(** ** From the parsed pages to the extraction *)

Lemma extract_loop_filter (pageIndices : list Z) (pageCount : Z) :
  forall copied,
    Legacy.extract_loop pageIndices pageCount copied
    = copied
      ++ filter (fun idx => (0 <=? idx) && (idx <? pageCount)) pageIndices.
Proof.
  induction pageIndices as [|i l IH]; intros copied;
    cbn [Legacy.extract_loop filter]; [now rewrite app_nil_r|].
  destruct ((0 <=? i) && (i <? pageCount)); rewrite IH; [|reflexivity].
  now rewrite <- app_assoc.
Qed.

Lemma pageIndices_all (pageRanges : list Z) (pageCount : Z) :
  Forall (fun p => 1 <= p <= pageCount) pageRanges ->
  App.pageIndices pageRanges pageCount = map (fun p => p - 1) pageRanges.
Proof.
  unfold App.pageIndices.
  induction 1 as [|p l Hp _ IH]; cbn [map filter]; [reflexivity|].
  destruct (Z.leb_spec 0 (p - 1)); [|lia].
  destruct (Z.ltb_spec (p - 1) pageCount); [|lia].
  cbn [andb]. now rewrite IH.
Qed.

(** The page indices that reach copyPages: both variants of extractPages
    copy the same indices in the same order, every index copied is inside
    the source document, and when all the page numbers are pages of the
    document each of them is copied, as its number minus one. *)
Theorem extract_indices :
  forall (pageRanges : list Z) (pageCount : Z),
    Legacy.copiedIndices pageRanges pageCount
    = App.pageIndices pageRanges pageCount /\
    Forall (fun idx => 0 <= idx < pageCount)
      (App.pageIndices pageRanges pageCount) /\
    (Forall (fun p => 1 <= p <= pageCount) pageRanges ->
     App.pageIndices pageRanges pageCount
     = map (fun p => p - 1) pageRanges).
Proof.
  intros pageRanges pageCount. split; [|split].
  - unfold Legacy.copiedIndices. now rewrite extract_loop_filter.
  - unfold App.pageIndices. apply Forall_forall. intros idx Hin.
    apply filter_In in Hin as [_ H]. apply andb_prop in H as [H1 H2].
    apply Z.leb_le in H1. apply Z.ltb_lt in H2. lia.
  - apply pageIndices_all.
Qed.

Lemma extract_indices_witness :
  App.pageIndices [3; 1; 2] 3 = [2; 0; 1].
Proof.
  destruct (extract_indices [3; 1; 2] 3) as (_ & _ & H).
  apply H. repeat (constructor; [lia|]). constructor.
Defined.




(** ** The text field follows the selection *)





Lemma loadPdf_thumbnails (n : nat) :
  App.thumbnails (App.loadPdf n) = zrange 1 (Z.of_nat n).
Proof.
  unfold App.loadPdf, zrange. cbn [App.thumbnails].
  replace (Z.to_nat (Z.of_nat n + 1 - 1)) with n by lia.
  apply map_ext. intros k. lia.
Qed.

Lemma insert_at_target_perm (dragging target : Z) (leftHalf : bool)
  (others : list Z) :
  Permutation (dragging :: others)
    (App.insert_at_target dragging target leftHalf others).
Proof.
  induction others as [|t rest IH]; cbn [App.insert_at_target]; [reflexivity|].
  destruct (t =? target).
  - destruct leftHalf; [reflexivity | apply perm_swap].
  - rewrite perm_swap. now constructor.
Qed.

Lemma remove_dragging_perm (dragging : Z) (l : list Z) :
  NoDup l -> In dragging l ->
  Permutation l (dragging :: filter (fun t => negb (t =? dragging)) l).
Proof.
  induction l as [|x l IH]; intros Hnd Hin; [destruct Hin|].
  inversion Hnd as [|? ? Hx Hnd']; subst. cbn [filter].
  destruct (Z.eqb_spec x dragging) as [->|Hne]; cbn [negb].
  - constructor.
    rewrite forallb_filter_id; [reflexivity|].
    apply forallb_forall. intros y Hy.
    destruct (Z.eqb_spec y dragging); [subst; contradiction | reflexivity].
  - destruct Hin as [E|Hin]; [contradiction|].
    rewrite perm_swap. constructor. now apply IH.
Qed.

Lemma dropThumbnail_perm (dragging target : Z) (leftHalf : bool)
  (pp : App.PagePreview) :
  NoDup (App.thumbnails pp) ->
  Permutation (App.thumbnails pp)
    (App.thumbnails (App.dropThumbnail dragging target leftHalf pp)).
Proof.
  intros Hnd. unfold App.dropThumbnail.
  destruct (set_has dragging (App.thumbnails pp)) eqn:Eh; cbn [andb];
    [|reflexivity].
  destruct (negb (dragging =? target)); [|reflexivity].
  cbn [App.updatePagesInput App.thumbnails].
  rewrite <- insert_at_target_perm.
  apply remove_dragging_perm; [assumption | now apply set_has_in].
Qed.

Lemma preview_step_thumbnails (pp : App.PagePreview) (e : App.preview_event) :
  NoDup (App.thumbnails pp) ->
  Permutation (App.thumbnails pp) (App.thumbnails (App.preview_step pp e)).
Proof.
  intros Hnd. destruct e; cbn [App.preview_step]; try reflexivity.
  now apply dropThumbnail_perm.
Qed.

Lemma preview_step_in_sync (pp : App.PagePreview) (e : App.preview_event) :
  App.pagesInput pp = App.formatPageRanges (App.getSelectedPagesArray pp) ->
  App.pagesInput (App.preview_step pp e)
  = App.formatPageRanges (App.getSelectedPagesArray (App.preview_step pp e)).
Proof.
  intros H. destruct e; cbn [App.preview_step]; try reflexivity.
  unfold App.dropThumbnail.
  destruct (set_has dragging (App.thumbnails pp) && negb (dragging =? target));
    [reflexivity | exact H].
Qed.

Lemma preview_run_invariant (n : nat) (es : list App.preview_event) :
  Permutation (zrange 1 (Z.of_nat n))
    (App.thumbnails (preview_run (App.loadPdf n) es)) /\
  App.pagesInput (preview_run (App.loadPdf n) es)
  = App.formatPageRanges
      (App.getSelectedPagesArray (preview_run (App.loadPdf n) es)).
Proof.
  unfold preview_run.
  assert (H0 : Permutation (zrange 1 (Z.of_nat n))
                 (App.thumbnails (App.loadPdf n)) /\
               App.pagesInput (App.loadPdf n)
               = App.formatPageRanges
                   (App.getSelectedPagesArray (App.loadPdf n))).
  { split; [now rewrite loadPdf_thumbnails|].
    unfold App.getSelectedPagesArray. cbn [App.loadPdf App.selectedPages
      App.pagesInput App.thumbnails].
    induction (map _ (seq 0 n)); [reflexivity | assumption]. }
  revert H0. generalize (App.loadPdf n) as pp.
  induction es as [|e es IH]; intros pp [Hperm Hsync]; cbn [fold_left];
    [now split|].
  apply IH. split.
  - rewrite Hperm. apply preview_step_thumbnails.
    eapply Permutation_NoDup; [exact Hperm | apply NoDup_zrange].
  - now apply preview_step_in_sync.
Qed.

Lemma selected_pages_valid (n : nat) (pp : App.PagePreview) :
  Permutation (zrange 1 (Z.of_nat n)) (App.thumbnails pp) ->
  NoDup (App.getSelectedPagesArray pp) /\
  Forall (fun p => 1 <= p <= Z.of_nat n) (App.getSelectedPagesArray pp).
Proof.
  intros Hperm. unfold App.getSelectedPagesArray. split.
  - apply NoDup_filter.
    eapply Permutation_NoDup; [exact Hperm | apply NoDup_zrange].
  - apply Forall_forall. intros p Hp. apply filter_In in Hp as [Hp _].
    apply (Permutation_in _ (Permutation_sym Hperm)) in Hp.
    now apply in_zrange in Hp.
Qed.

(** Whatever the user does with the thumbnails of a document of n pages
    loaded into a fresh preview (nothing selected, empty text field):
    clicks, select all, deselect all, drags; the thumbnails remain a
    rearrangement of the pages 1..n, the text field holds the formatted
    selection, and parsing the text field gives back the selected pages in
    their visual order. *)
Theorem preview_text_follows_selection :
  forall (n : nat) (es : list App.preview_event),
    Permutation (zrange 1 (Z.of_nat n))
      (App.thumbnails (preview_run (App.loadPdf n) es)) /\
    App.pagesInput (preview_run (App.loadPdf n) es)
    = App.formatPageRanges
        (App.getSelectedPagesArray (preview_run (App.loadPdf n) es)) /\
    App.parsePageRanges (App.pagesInput (preview_run (App.loadPdf n) es))
      (Z.of_nat n)
    = Some (App.getSelectedPagesArray (preview_run (App.loadPdf n) es)).
Proof.
  intros n es.
  destruct (preview_run_invariant n es) as [Hperm Hsync].
  destruct (selected_pages_valid n _ Hperm) as [Hnd Hr].
  split; [exact Hperm|]. split; [exact Hsync|].
  rewrite Hsync.
  rewrite parsePageRanges_expand.
  destruct (App.getSelectedPagesArray (preview_run (App.loadPdf n) es))
    as [|p0 rest] eqn:E; [reflexivity|].
  rewrite expand_format by (assumption || discriminate).
  f_equal. now apply set_of_array_NoDup.
Qed.


(** ** Dragging a thumbnail *)

Lemma insert_at_target_place (dragging target : Z) (leftHalf : bool)
  (others : list Z) :
  In target others ->
  exists pre post,
    others = pre ++ target :: post /\
    ~ In target pre /\
    App.insert_at_target dragging target leftHalf others
    = if leftHalf then pre ++ dragging :: target :: post
      else pre ++ target :: dragging :: post.
Proof.
  induction others as [|t rest IH]; intros Hin; [destruct Hin|].
  cbn [App.insert_at_target].
  destruct (Z.eqb_spec t target) as [->|Hne].
  - exists [], rest.
    split; [reflexivity|]. split; [intros []|]. now destruct leftHalf.
  - destruct Hin as [E|Hin]; [contradiction|].
    destruct (IH Hin) as (pre & post & -> & Hpre & Hins).
    exists (t :: pre), post. rewrite Hins.
    split; [reflexivity|]. split; [|now destruct leftHalf].
    intros [E|H]; [congruence | contradiction].
Qed.

(** Dropping the thumbnail of page d on the thumbnail of another page t
    is a pure reordering: d is taken out and put back immediately before t
    (drop on the left half) or immediately after t (right half), the other
    thumbnails keep their order, no thumbnail is lost or doubled, and the
    set of selected pages is untouched. *)
Theorem thumbnail_drop_reorders :
  forall (pp : App.PagePreview) (d t : Z) (leftHalf : bool),
    NoDup (App.thumbnails pp) ->
    In d (App.thumbnails pp) ->
    In t (App.thumbnails pp) ->
    d <> t ->
    (exists pre post,
        filter (fun x => negb (x =? d)) (App.thumbnails pp)
        = pre ++ t :: post /\
        App.thumbnails (App.dropThumbnail d t leftHalf pp)
        = if leftHalf then pre ++ d :: t :: post
          else pre ++ t :: d :: post) /\
    Permutation (App.thumbnails pp)
      (App.thumbnails (App.dropThumbnail d t leftHalf pp)) /\
    App.selectedPages (App.dropThumbnail d t leftHalf pp)
    = App.selectedPages pp /\
    Permutation (App.getSelectedPagesArray pp)
      (App.getSelectedPagesArray (App.dropThumbnail d t leftHalf pp)).
Proof.
  intros pp d t leftHalf Hnd Hd Ht Hdt.
  pose proof (dropThumbnail_perm d t leftHalf pp Hnd) as Hperm.
  assert (Hsel : App.selectedPages (App.dropThumbnail d t leftHalf pp)
                 = App.selectedPages pp).
  { unfold App.dropThumbnail.
    now destruct (set_has d (App.thumbnails pp) && negb (d =? t)). }
  split; [|split; [exact Hperm | split; [exact Hsel|]]].
  - assert (Hin : In t (filter (fun x => negb (x =? d)) (App.thumbnails pp))).
    { apply filter_In. split; [assumption|].
      destruct (Z.eqb_spec t d); [congruence | reflexivity]. }
    destruct (insert_at_target_place d t leftHalf _ Hin)
      as (pre & post & E & _ & Hins).
    exists pre, post. split; [exact E|].
    unfold App.dropThumbnail.
    rewrite (proj2 (set_has_in d _) Hd).
    destruct (Z.eqb_spec d t); [contradiction|]. cbn [andb negb].
    exact Hins.
  - unfold App.getSelectedPagesArray. rewrite Hsel.
    generalize (fun pageNum => set_has pageNum (App.selectedPages pp)) as f.
    intros f. clear -Hperm.
    induction Hperm as [|x l l' _ IH|x y l|l l' l'' _ IH1 _ IH2];
      cbn [filter].
    + constructor.
    + destruct (f x); [now constructor | assumption].
    + destruct (f x), (f y); try reflexivity. apply perm_swap.
    + now transitivity (filter f l').
Qed.

Lemma thumbnail_drop_reorders_witness :
  App.thumbnails
    (App.dropThumbnail 4 2 false
       (App.togglePageSelection 4 (App.loadPdf 5)))
  = [1; 2; 4; 3; 5].
Proof.
  destruct (thumbnail_drop_reorders
              (App.togglePageSelection 4 (App.loadPdf 5)) 4 2 false)
    as ((pre & post & E & Hth) & _);
    [ repeat (constructor; [cbn; intuition lia|]); constructor
    | cbn; tauto | cbn; tauto | lia |].
  reflexivity.
Defined.

(** ** Turning the pages of the preview *)

(** While the modal shows a page of the document, navigatePage keeps it
    on a page of the document for every step size; a step back or forward
    changes the page exactly when the matching button is enabled, and a
    step forward that moved is undone by a step back. *)
Theorem navigation_stays_in_document :
  forall (m : App.PreviewModal) (direction : Z),
    1 <= App.currentPage m <= App.totalPages m ->
    1 <= App.currentPage (App.navigatePage direction m)
    <= App.totalPages (App.navigatePage direction m) /\
    App.totalPages (App.navigatePage direction m) = App.totalPages m /\
    (App.navigatePage (-1) m = m <-> App.prevDisabled m = true) /\
    (App.navigatePage 1 m = m <-> App.nextDisabled m = true) /\
    (App.nextDisabled m = false ->
     App.navigatePage (-1) (App.navigatePage 1 m) = m).
Proof.
  intros [cur total] direction H. cbn [App.currentPage App.totalPages] in H.
  unfold App.navigatePage, App.prevDisabled, App.nextDisabled.
  cbn [App.currentPage App.totalPages].
  repeat split.
  - destruct (Z.leb_spec 1 (cur + direction)),
      (Z.leb_spec (cur + direction) total); cbn; lia.
  - destruct (Z.leb_spec 1 (cur + direction)),
      (Z.leb_spec (cur + direction) total); cbn; lia.
  - now destruct ((1 <=? cur + direction) && (cur + direction <=? total)).
  - destruct (Z.leb_spec 1 (cur + -1)), (Z.leb_spec (cur + -1) total);
      cbn [andb]; intros E; apply Z.leb_le; try lia.
    injection E. lia.
  - intros E. apply Z.leb_le in E.
    destruct (Z.leb_spec 1 (cur + -1)); [lia | reflexivity].
  - destruct (Z.leb_spec 1 (cur + 1)), (Z.leb_spec (cur + 1) total);
      cbn [andb]; intros E; apply Z.leb_le; try lia.
    injection E. lia.
  - intros E. apply Z.leb_le in E.
    destruct (Z.leb_spec (cur + 1) total); [lia|].
    now rewrite andb_false_r.
  - intros E. apply Z.leb_gt in E.
    destruct (Z.leb_spec 1 (cur + 1)); [|lia].
    destruct (Z.leb_spec (cur + 1) total); [|lia].
    cbn [andb App.currentPage App.totalPages].
    destruct (Z.leb_spec 1 (cur + 1 + -1)); [|lia].
    destruct (Z.leb_spec (cur + 1 + -1) total); [|lia].
    cbn [andb]. f_equal. lia.
Qed.

Lemma navigation_stays_in_document_witness :
  App.navigatePage 1 (App.mkPreviewModal 3 3) = App.mkPreviewModal 3 3 /\
  App.navigatePage (-1) (App.mkPreviewModal 3 3) = App.mkPreviewModal 2 3.
Proof.
  destruct (navigation_stays_in_document (App.mkPreviewModal 3 3) 1)
    as (_ & _ & _ & Hnext & _); [cbn; lia|].
  split; [apply Hnext; reflexivity | reflexivity].
Defined.

(** ** Further properties of the merge list *)

Section MergeList.

Variable File : Type.
Variable undefined : File.

Lemma firstn_length_app (pre r : list File) :
  firstn (List.length pre) (pre ++ r) = pre.
Proof. induction pre as [|x pre IH]; cbn; [reflexivity | now rewrite IH]. Qed.

Lemma skipn_length_app (pre r : list File) :
  skipn (List.length pre) (pre ++ r) = r.
Proof. induction pre as [|x pre IH]; cbn; [reflexivity | exact IH]. Qed.

Lemma index_at_length (pre r : list File) (x : File) :
  index undefined (pre ++ x :: r) (Z.of_nat (List.length pre)) = x.
Proof.
  unfold index. destruct (Z.ltb_spec (Z.of_nat (List.length pre)) 0); [lia|].
  rewrite Nat2Z.id, app_nth2, Nat.sub_diag by lia. reflexivity.
Qed.

Lemma assign_at_length (pre r : list File) (x v : File) :
  assign undefined (pre ++ x :: r) (Z.of_nat (List.length pre)) v
  = pre ++ v :: r.
Proof.
  unfold assign. destruct (Z.ltb_spec (Z.of_nat (List.length pre)) 0); [lia|].
  rewrite length_app. cbn [List.length].
  destruct (Z.ltb_spec (Z.of_nat (List.length pre))
              (Z.of_nat (List.length pre + S (List.length r)))); [|lia].
  rewrite Nat2Z.id, firstn_length_app.
  change (S (List.length pre)) with (1 + List.length pre)%nat.
  rewrite <- skipn_skipn, skipn_length_app. reflexivity.
Qed.

Lemma splice_remove_at_length (pre r : list File) (x : File) :
  splice_remove (Z.of_nat (List.length pre)) (pre ++ x :: r) = pre ++ r.
Proof.
  unfold splice_remove.
  rewrite splice_start_in_range
    by (rewrite length_app; cbn [List.length]; lia).
  rewrite Nat2Z.id, firstn_length_app.
  change (S (List.length pre)) with (1 + List.length pre)%nat.
  rewrite <- skipn_skipn, skipn_length_app. reflexivity.
Qed.

Lemma splice_insert_at_length (pre r : list File) (v : File) :
  splice_insert (Z.of_nat (List.length pre)) v (pre ++ r) = pre ++ v :: r.
Proof.
  unfold splice_insert.
  rewrite splice_start_in_range by (rewrite length_app; lia).
  now rewrite Nat2Z.id, firstn_length_app, skipn_length_app.
Qed.

Lemma length_snoc (pre : list File) (a : File) :
  Z.of_nat (List.length (pre ++ [a])) = Z.of_nat (List.length pre) + 1.
Proof. rewrite length_app. cbn. lia. Qed.

Lemma index_after_length (pre r : list File) (a x : File) :
  index undefined (pre ++ a :: x :: r) (Z.of_nat (List.length pre) + 1) = x.
Proof.
  rewrite <- length_snoc with (a := a).
  replace (pre ++ a :: x :: r) with ((pre ++ [a]) ++ x :: r)
    by now rewrite <- app_assoc.
  apply index_at_length.
Qed.

Lemma assign_after_length (pre r : list File) (a x v : File) :
  assign undefined (pre ++ a :: x :: r) (Z.of_nat (List.length pre) + 1) v
  = pre ++ a :: v :: r.
Proof.
  rewrite <- length_snoc with (a := a).
  replace (pre ++ a :: x :: r) with ((pre ++ [a]) ++ x :: r)
    by now rewrite <- app_assoc.
  rewrite assign_at_length. now rewrite <- app_assoc.
Qed.

Lemma moveDown_swap (pre post : list File) (a b : File) :
  App.moveDown File undefined (Z.of_nat (List.length pre))
    (pre ++ a :: b :: post)
  = pre ++ b :: a :: post.
Proof.
  unfold App.moveDown. rewrite length_app. cbn [List.length].
  destruct (Z.ltb_spec (Z.of_nat (List.length pre))
              (Z.of_nat (List.length pre + S (S (List.length post))) - 1));
    [|lia].
  rewrite index_at_length, index_after_length, assign_after_length.
  apply assign_at_length.
Qed.

Lemma moveUp_swap (pre post : list File) (a b : File) :
  App.moveUp File undefined (Z.of_nat (List.length pre) + 1)
    (pre ++ a :: b :: post)
  = pre ++ b :: a :: post.
Proof.
  unfold App.moveUp.
  destruct (Z.ltb_spec 0 (Z.of_nat (List.length pre) + 1)); [|lia].
  replace (Z.of_nat (List.length pre) + 1 - 1)
    with (Z.of_nat (List.length pre)) by lia.
  rewrite index_at_length, index_after_length, assign_at_length.
  apply assign_after_length.
Qed.

Lemma reorder_down_swap (pre post : list File) (a b : File) :
  App.reorder File undefined (Z.of_nat (List.length pre))
    (Z.of_nat (List.length pre) + 2) (pre ++ a :: b :: post)
  = pre ++ b :: a :: post.
Proof.
  unfold App.reorder.
  destruct (Z.ltb_spec (Z.of_nat (List.length pre))
              (Z.of_nat (List.length pre) + 2)); [|lia].
  destruct (Z.eqb_spec (Z.of_nat (List.length pre))
              (Z.of_nat (List.length pre) + 2 - 1)); [lia|].
  cbn [negb]. rewrite index_at_length, splice_remove_at_length.
  replace (Z.of_nat (List.length pre) + 2 - 1)
    with (Z.of_nat (List.length (pre ++ [b]))) by (rewrite length_snoc; lia).
  replace (pre ++ b :: post) with ((pre ++ [b]) ++ post)
    by now rewrite <- app_assoc.
  rewrite splice_insert_at_length, <- app_assoc. reflexivity.
Qed.

Lemma reorder_up_swap (pre post : list File) (a b : File) :
  App.reorder File undefined (Z.of_nat (List.length pre) + 1)
    (Z.of_nat (List.length pre)) (pre ++ a :: b :: post)
  = pre ++ b :: a :: post.
Proof.
  unfold App.reorder.
  destruct (Z.ltb_spec (Z.of_nat (List.length pre) + 1)
              (Z.of_nat (List.length pre))); [lia|].
  destruct (Z.eqb_spec (Z.of_nat (List.length pre) + 1)
              (Z.of_nat (List.length pre))); [lia|].
  cbn [negb].
  rewrite <- length_snoc with (a := a).
  replace (pre ++ a :: b :: post) with ((pre ++ [a]) ++ b :: post)
    by now rewrite <- app_assoc.
  rewrite index_at_length, splice_remove_at_length.
  rewrite <- app_assoc. cbn [app].
  now rewrite splice_insert_at_length.
Qed.

Lemma split_two (l : list File) (k : nat) :
  (k + 1 < List.length l)%nat ->
  exists pre a b post, l = pre ++ a :: b :: post /\ List.length pre = k.
Proof.
  intros Hk. exists (firstn k l).
  pose proof (firstn_skipn k l) as E.
  pose proof (length_skipn k l) as Hs.
  destruct (skipn k l) as [|a [|b post]]; cbn in Hs; try lia.
  exists a, b, post. split; [now symmetry|].
  rewrite length_firstn. lia.
Qed.

Lemma moveUp_perm (files : list File) (index : Z) :
  0 <= index < Z.of_nat (List.length files) ->
  Permutation files (App.moveUp File undefined index files).
Proof.
  intros H. destruct (Z.eq_dec index 0) as [->|Hne]; [reflexivity|].
  destruct (split_two files (Z.to_nat (index - 1)) ltac:(lia))
    as (pre & a & b & post & -> & Hlen).
  replace index with (Z.of_nat (List.length pre) + 1) by lia.
  rewrite moveUp_swap.
  apply Permutation_app_head, perm_swap.
Qed.

Lemma moveDown_perm (files : list File) (index : Z) :
  0 <= index < Z.of_nat (List.length files) ->
  Permutation files (App.moveDown File undefined index files).
Proof.
  intros H.
  destruct (Z.eq_dec index (Z.of_nat (List.length files) - 1)) as [E|Hne].
  - unfold App.moveDown.
    destruct (Z.ltb_spec index (Z.of_nat (List.length files) - 1));
      [lia | reflexivity].
  - destruct (split_two files (Z.to_nat index) ltac:(lia))
      as (pre & a & b & post & -> & Hlen).
    replace index with (Z.of_nat (List.length pre)) by lia.
    rewrite moveDown_swap.
    apply Permutation_app_head, perm_swap.
Qed.

Lemma skipn_nth (l : list File) (k : nat) :
  (k < List.length l)%nat ->
  skipn k l = nth k l undefined :: skipn (S k) l.
Proof.
  revert k. induction l as [|x l IH]; intros k Hk; [cbn in Hk; lia|].
  destruct k as [|k]; [reflexivity|].
  cbn [skipn nth]. cbn in Hk. apply IH. lia.
Qed.

Lemma reorder_perm (files : list File) (fromIndex toIndex : Z) :
  0 <= fromIndex < Z.of_nat (List.length files) ->
  0 <= toIndex <= Z.of_nat (List.length files) ->
  Permutation files (App.reorder File undefined fromIndex toIndex files).
Proof.
  intros Hf Ht. rewrite reorder_in_range by assumption. cbv zeta.
  rewrite <- Permutation_middle.
  rewrite firstn_skipn.
  rewrite <- (firstn_skipn (Z.to_nat fromIndex) files) at 1.
  rewrite (skipn_nth files (Z.to_nat fromIndex)) by lia.
  now rewrite <- Permutation_middle.
Qed.

End MergeList.

(** Dropping an item of the merge list on an item of the list never
    loses or doubles a file: the list after the drop is a rearrangement of
    the list before, of the same length; a drop whose data is not a number
    changes nothing. *)
Theorem file_drop_keeps_files :
  forall (File : Type) (undefined : File) (files : list File)
         (fromIndex index : Z) (bottom : bool),
    0 <= fromIndex < Z.of_nat (List.length files) ->
    0 <= index < Z.of_nat (List.length files) ->
    Permutation files
      (App.dropFile File undefined (Some fromIndex) index bottom files) /\
    List.length
      (App.dropFile File undefined (Some fromIndex) index bottom files)
    = List.length files /\
    App.dropFile File undefined None index bottom files = files.
Proof.
  intros File undefined files fromIndex index bottom Hf Hi.
  assert (HP : Permutation files
                 (App.dropFile File undefined (Some fromIndex) index bottom
                    files)).
  { unfold App.dropFile. apply reorder_perm; [assumption|].
    destruct bottom; lia. }
  split; [exact HP|]. split; [|reflexivity].
  symmetry. now apply Permutation_length.
Qed.

Lemma file_drop_keeps_files_witness :
  Permutation ["A"; "B"; "C"; "D"]%string
    (App.dropFile string "undefined"%string (Some 3) 1 false
       ["A"; "B"; "C"; "D"]%string) /\
  App.dropFile string "undefined"%string (Some 3) 1 false
    ["A"; "B"; "C"; "D"]%string
  = ["A"; "D"; "B"; "C"]%string.
Proof.
  destruct (file_drop_keeps_files string "undefined"%string
              ["A"; "B"; "C"; "D"]%string 3 1 false) as (HP & _);
    [cbn; lia | cbn; lia |].
  split; [exact HP | reflexivity].
Defined.

(** The buttons and the drag agree: on two neighbouring items a, b the
    "move down" button of a, the "move up" button of b, the drop of a on
    the lower half of b and the drop of b on the upper half of a all give
    the list with a and b exchanged; "move up" undoes "move down"; the
    first item cannot move up and the last cannot move down. *)
Theorem move_buttons_swap_neighbours :
  forall (File : Type) (undefined : File) (pre post : list File)
         (a b : File),
    let files := pre ++ a :: b :: post in
    let i := Z.of_nat (List.length pre) in
    App.moveDown File undefined i files = pre ++ b :: a :: post /\
    App.moveUp File undefined (i + 1) files = pre ++ b :: a :: post /\
    App.dropFile File undefined (Some i) (i + 1) true files
    = pre ++ b :: a :: post /\
    App.dropFile File undefined (Some (i + 1)) i false files
    = pre ++ b :: a :: post /\
    App.moveUp File undefined (i + 1) (App.moveDown File undefined i files)
    = files /\
    App.moveUp File undefined 0 files = files /\
    App.moveDown File undefined (Z.of_nat (List.length files) - 1) files
    = files.
Proof.
  intros File undefined pre post a b files i. subst files i.
  rewrite moveDown_swap, !moveUp_swap.
  unfold App.dropFile.
  replace (Z.of_nat (List.length pre) + 1 + 1)
    with (Z.of_nat (List.length pre) + 2) by lia.
  rewrite reorder_down_swap, reorder_up_swap.
  repeat split.
  unfold App.moveDown.
  now rewrite Z.ltb_irrefl.
Qed.

(** A drop on a file item whose data is a number beyond the end of the
    list (it was not set by dragging an item of this list) removes nothing
    and puts undefined into the list, at the place of the drop: the list
    grows by one entry that is no file. *)
Theorem foreign_drop_inserts_undefined :
  forall (File : Type) (undefined : File) (files : list File)
         (fromIndex index : Z) (bottom : bool),
    Z.of_nat (List.length files) < fromIndex ->
    0 <= index < Z.of_nat (List.length files) ->
    let place := Z.to_nat (if bottom then index + 1 else index) in
    App.dropFile File undefined (Some fromIndex) index bottom files
    = firstn place files ++ undefined :: skipn place files /\
    List.length
      (App.dropFile File undefined (Some fromIndex) index bottom files)
    = S (List.length files).
Proof.
  intros File undefined files fromIndex index bottom Hf Hi place.
  assert (E : App.dropFile File undefined (Some fromIndex) index bottom files
              = firstn place files ++ undefined :: skipn place files).
  { unfold App.dropFile, App.reorder. subst place.
    set (toIndex := if bottom then index + 1 else index).
    assert (Ht : 0 <= toIndex <= Z.of_nat (List.length files))
      by (subst toIndex; destruct bottom; lia).
    destruct (Z.ltb_spec fromIndex toIndex); [lia|].
    destruct (Z.eqb_spec fromIndex toIndex); [lia|]. cbn [negb].
    assert (Hrem : splice_remove fromIndex files = files).
    { unfold splice_remove, splice_start.
      destruct (Z.ltb_spec fromIndex 0); [lia|].
      rewrite Z.min_r, Nat2Z.id by lia.
      rewrite firstn_all, skipn_all2 by lia. apply app_nil_r. }
    assert (Hidx : Js.index undefined files fromIndex = undefined).
    { unfold Js.index. destruct (Z.ltb_spec fromIndex 0); [lia|].
      apply nth_overflow. lia. }
    rewrite Hrem, Hidx. unfold splice_insert.
    now rewrite splice_start_in_range by lia. }
  split; [exact E|].
  rewrite E, length_app. cbn [List.length].
  rewrite length_firstn, length_skipn. subst place. destruct bottom; lia.
Qed.

Lemma foreign_drop_inserts_undefined_witness :
  App.dropFile string "undefined"%string (Some 7) 1 false
    ["A"; "B"; "C"]%string
  = ["A"; "undefined"; "B"; "C"]%string.
Proof.
  destruct (foreign_drop_inserts_undefined string "undefined"%string
              ["A"; "B"; "C"]%string 7 1 false) as (H & _);
    [cbn; lia | cbn; lia |].
  exact H.
Defined.

Lemma Forall_firstn_of {A : Type} (P : A -> Prop) (k : nat) (l : list A) :
  Forall P l -> Forall P (firstn k l).
Proof.
  intros H. rewrite <- (firstn_skipn k l) in H.
  now apply Forall_app in H.
Qed.

Lemma Forall_skipn_of {A : Type} (P : A -> Prop) (k : nat) (l : list A) :
  Forall P l -> Forall P (skipn k l).
Proof.
  intros H. rewrite <- (firstn_skipn k l) in H.
  now apply Forall_app in H.
Qed.

Lemma pdf_entries_of_filter (files : list App.UploadFile) :
  Forall pdf_entry (map Some (filter App.is_pdf files)).
Proof.
  apply Forall_map, Forall_forall. intros f Hf.
  apply filter_In in Hf as [_ Hf]. now exists f.
Qed.

Lemma merge_step_pdf (files : list (option App.UploadFile))
  (e : App.merge_event) :
  Forall pdf_entry files ->
  merge_event_in_list files e ->
  Forall pdf_entry (App.merge_step files e).
Proof.
  intros Hall He. destruct e as [fs|fs|i|i|i|fromIndex i bottom];
    cbn [App.merge_step merge_event_in_list] in *.
  - apply Forall_app. split; [assumption | apply pdf_entries_of_filter].
  - unfold App.containerDrop.
    destruct (List.length (filter App.is_pdf fs) =? 0)%nat; cbn [snd];
      [assumption|].
    apply Forall_app. split; [assumption | apply pdf_entries_of_filter].
  - eapply Permutation_Forall; [now apply moveUp_perm | assumption].
  - eapply Permutation_Forall; [now apply moveDown_perm | assumption].
  - unfold splice_remove. apply Forall_app.
    split; [now apply Forall_firstn_of | now apply Forall_skipn_of].
  - destruct He as [Hi Hf]. destruct fromIndex as [j|]; [|assumption].
    eapply Permutation_Forall; [|exact Hall].
    unfold App.dropFile. apply reorder_perm; [assumption|].
    destruct bottom; lia.
Qed.

(** Every entry of the merge list is a PDF file, never undefined, as long
    as the events come from the list itself (buttons of its items, drags
    of its items): files arrive only through the file input and the upload
    area, which keep PDFs only, and the list operations move or remove
    entries without making new ones. *)
Theorem merge_list_holds_pdfs :
  forall (files : list (option App.UploadFile)) (es : list App.merge_event),
    Forall pdf_entry files ->
    merge_events_in_list files es ->
    Forall pdf_entry (merge_run files es).
Proof.
  intros files es. revert files. unfold merge_run.
  induction es as [|e es IH]; intros files Hall Hes; cbn [fold_left];
    [assumption|].
  destruct Hes as [He Hes].
  apply IH; [now apply merge_step_pdf | assumption].
Qed.

Lemma merge_list_holds_pdfs_witness :
  Forall pdf_entry
    (merge_run []
       [App.InputChange
          [App.mkUploadFile (lit "a.pdf") 10 (lit "application/pdf");
           App.mkUploadFile (lit "b.txt") 20 (lit "text/plain");
           App.mkUploadFile (lit "c.pdf") 30 (lit "application/pdf")];
        App.MoveDownClick 0;
        App.ItemDrop (Some 1) 0 false;
        App.RemoveClick 1]).
Proof.
  apply merge_list_holds_pdfs; [constructor|].
  cbn. repeat split; lia.
Defined.

(** ** Files dropped on an upload area *)

Lemma filter_all_length {A : Type} (f : A -> bool) (l : list A) :
  List.length (filter f l) = List.length l <-> filter f l = l.
Proof.
  split; [|now intros ->].
  intros H. apply forallb_filter_id. now apply filter_length_forallb.
Qed.

Lemma filter_none_length {A : Type} (f : A -> bool) (l : list A) :
  List.length (filter f l) = 0%nat <-> Forall (fun x => f x = false) l.
Proof.
  induction l as [|x l IH]; cbn [filter]; [split; constructor|].
  destruct (f x) eqn:E; cbn [List.length].
  - split; [discriminate|]. intros H. inversion H; congruence.
  - rewrite IH. split; [now constructor | now inversion 1].
Qed.

(** The drop handler of an upload area hands on the PDFs among the
    dropped files, in their order, and only when there is at least one;
    with no PDF (an empty drop included) it reports "Only PDF files are
    allowed." and hands on nothing; it warns that files were ignored
    exactly when some but not all of the dropped files are PDFs. *)
Theorem container_drop_keeps_pdfs :
  forall files : list App.UploadFile,
    (snd (App.containerDrop files) = None
     <-> Forall (fun f => App.is_pdf f = false) files) /\
    (snd (App.containerDrop files) = None ->
     fst (App.containerDrop files) = [lit "Only PDF files are allowed."]) /\
    (forall pdfFiles,
        snd (App.containerDrop files) = Some pdfFiles ->
        pdfFiles = filter App.is_pdf files /\
        pdfFiles <> [] /\
        Forall (fun f => App.is_pdf f = true) pdfFiles /\
        (fst (App.containerDrop files) = [] <-> pdfFiles = files) /\
        (pdfFiles <> files ->
         fst (App.containerDrop files)
         = [lit "Some non-PDF files were ignored."])).
Proof.
  intros files. unfold App.containerDrop.
  destruct (Nat.eqb_spec (List.length (filter App.is_pdf files)) 0) as [E|E];
    cbn [fst snd].
  - split; [|split]; [split | reflexivity | discriminate].
    + intros _. now apply filter_none_length.
    + reflexivity.
  - split; [|split]; [split | discriminate |].
    + discriminate.
    + intros H. apply filter_none_length in H. contradiction.
    + intros pdfFiles H. injection H as <-.
      split; [reflexivity|].
      split; [intros E0; now rewrite E0 in E|].
      split; [apply Forall_forall; intros f Hf;
              now apply filter_In in Hf|].
      destruct (Nat.eqb_spec (List.length (filter App.is_pdf files))
                  (List.length files)) as [El|El]; cbn [negb].
      * apply filter_all_length in El.
        split; [tauto | intros H; contradiction].
      * split; [|reflexivity].
        split; [discriminate|].
        intros H. exfalso. apply El. now rewrite H.
Qed.

Lemma container_drop_keeps_pdfs_witness :
  fst (App.containerDrop
         [App.mkUploadFile (lit "a.pdf") 10 (lit "application/pdf");
          App.mkUploadFile (lit "b.txt") 20 (lit "text/plain")])
  = [lit "Some non-PDF files were ignored."].
Proof.
  destruct (container_drop_keeps_pdfs
              [App.mkUploadFile (lit "a.pdf") 10 (lit "application/pdf");
               App.mkUploadFile (lit "b.txt") 20 (lit "text/plain")])
    as (_ & _ & H).
  destruct (H [App.mkUploadFile (lit "a.pdf") 10 (lit "application/pdf")]
              eq_refl) as (_ & _ & _ & _ & Hw).
  apply Hw. discriminate.
Defined.

(** ** The names of the entries of the ZIP archive *)

Lemma digits_fold_shift (s : jsstring) :
  forall acc,
    fold_left (fun acc c => 10 * acc + digit_value c) s acc
    = acc * 10 ^ Z.of_nat (List.length s) + digits_value s.
Proof.
  unfold digits_value.
  induction s as [|c s IH]; intros acc; cbn [fold_left List.length].
  - cbn. lia.
  - rewrite IH, (IH (10 * 0 + digit_value c)).
    rewrite Nat2Z.inj_succ, Z.pow_succ_r by lia. lia.
Qed.

Lemma digits_value_cons (c : char) (s : jsstring) :
  digits_value (c :: s)
  = digit_value c * 10 ^ Z.of_nat (List.length s) + digits_value s.
Proof.
  unfold digits_value at 1. cbn [fold_left].
  rewrite digits_fold_shift. lia.
Qed.

Lemma digit_value_bound (c : char) :
  is_digit c = true -> 0 <= digit_value c <= 9.
Proof.
  unfold is_digit, digit_value. intros H.
  apply andb_prop in H as [H1 H2].
  apply N.leb_le in H1. apply N.leb_le in H2. lia.
Qed.

Lemma digits_value_bound (s : jsstring) :
  Forall (fun c => is_digit c = true) s ->
  0 <= digits_value s < 10 ^ Z.of_nat (List.length s).
Proof.
  induction 1 as [|c s Hc _ IH]; [cbn; lia|].
  rewrite digits_value_cons. cbn [List.length].
  rewrite Nat2Z.inj_succ, Z.pow_succ_r by lia.
  pose proof (digit_value_bound c Hc). nia.
Qed.

Lemma digits_ltb (a : jsstring) :
  forall b,
    List.length a = List.length b ->
    Forall (fun c => is_digit c = true) a ->
    Forall (fun c => is_digit c = true) b ->
    digits_value a < digits_value b ->
    string_ltb a b = true.
Proof.
  induction a as [|c a IH]; intros b Hlen Ha Hb Hlt.
  { destruct b; [cbn in Hlt; lia | discriminate Hlen]. }
  destruct b as [|d b]; [discriminate Hlen|].
  inversion Ha as [|? ? Hc Ha']; subst.
  inversion Hb as [|? ? Hd Hb']; subst.
  injection Hlen as Hlen.
  rewrite !digits_value_cons, Hlen in Hlt.
  pose proof (digits_value_bound a Ha') as Ba. rewrite Hlen in Ba.
  pose proof (digits_value_bound b Hb') as Bb.
  pose proof (digit_value_bound c Hc) as Bc.
  pose proof (digit_value_bound d Hd) as Bd.
  cbn [string_ltb].
  destruct (N.ltb_spec c d); [reflexivity|].
  destruct (N.eqb_spec c d) as [->|Hne].
  - apply IH; try assumption. lia.
  - exfalso.
    assert (digit_value d + 1 <= digit_value c).
    { unfold digit_value. unfold is_digit in Hc, Hd.
      apply andb_prop in Hc as [Hc1 _]. apply andb_prop in Hd as [Hd1 _].
      apply N.leb_le in Hc1. apply N.leb_le in Hd1. lia. }
    nia.
Qed.

Lemma string_ltb_app (p : jsstring) :
  forall q s t,
    List.length p = List.length q ->
    string_ltb p q = true -> string_ltb (p ++ s) (q ++ t) = true.
Proof.
  induction p as [|x p IH]; intros q s t Hlen H.
  { destruct q; [discriminate H | discriminate Hlen]. }
  destruct q as [|y q]; [discriminate Hlen|].
  cbn [app string_ltb] in *.
  destruct (x <? y)%N; [reflexivity|].
  destruct (x =? y)%N; [|discriminate].
  apply IH; [now injection Hlen | assumption].
Qed.

Lemma digits_value_zeros (k : nat) (s : jsstring) :
  digits_value (repeat 48%N k ++ s) = digits_value s.
Proof.
  induction k as [|k IH]; [reflexivity|].
  cbn [repeat app]. rewrite digits_value_cons, IH.
  change (digit_value 48%N) with 0. lia.
Qed.

Lemma to_digits_length (fuel : nat) :
  forall n k,
    (1 <= k)%nat -> n < 10 ^ Z.of_nat k ->
    (List.length (to_digits fuel n) <= k)%nat.
Proof.
  induction fuel as [|f IH]; intros n k Hk Hn; cbn [to_digits];
    [cbn; lia|].
  destruct (Z.ltb_spec n 10); [cbn; lia|].
  rewrite length_app. cbn [List.length].
  destruct k as [|[|k]]; [lia | cbn in Hn; lia|].
  assert (n / 10 < 10 ^ Z.of_nat (S k)).
  { rewrite (Nat2Z.inj_succ (S k)), Z.pow_succ_r in Hn by lia.
    apply Z.div_lt_upper_bound; lia. }
  specialize (IH (n / 10) (S k) ltac:(lia) H0). lia.
Qed.

Lemma padded_number (n : Z) :
  1 <= n < 1000 ->
  List.length (padStart 3 48%N (toString n)) = 3%nat /\
  Forall (fun c => is_digit c = true) (padStart 3 48%N (toString n)) /\
  digits_value (padStart 3 48%N (toString n)) = n.
Proof.
  intros H. destruct (toString_numeral n ltac:(lia)) as [[_ Hd] Hv].
  assert (Hlen : (List.length (toString n) <= 3)%nat).
  { unfold toString. destruct (Z.ltb_spec n 0); [lia|].
    apply to_digits_length; [lia | cbn; lia]. }
  unfold padStart. split; [|split].
  - rewrite length_app, repeat_length. lia.
  - apply Forall_app. split; [|assumption].
    apply Forall_forall. intros c Hc. apply repeat_spec in Hc. now subst.
  - now rewrite digits_value_zeros.
Qed.

Lemma zipEntryName_number (i j : nat) :
  App.zipEntryName i = App.zipEntryName j -> i = j.
Proof.
  unfold App.zipEntryName. intros E.
  apply app_inv_head, app_inv_tail in E.
  apply (f_equal digits_value) in E. unfold padStart in E.
  rewrite !digits_value_zeros in E.
  destruct (toString_numeral (Z.of_nat i + 1) ltac:(lia)) as [_ Vi].
  destruct (toString_numeral (Z.of_nat j + 1) ltac:(lia)) as [_ Vj].
  lia.
Qed.

Lemma legacy_zipEntryName_number (i j : nat) :
  Legacy.zipEntryName i = Legacy.zipEntryName j -> i = j.
Proof.
  unfold Legacy.zipEntryName. intros E.
  apply app_inv_head, app_inv_tail in E.
  apply (f_equal digits_value) in E.
  destruct (toString_numeral (Z.of_nat i + 1) ltac:(lia)) as [_ Vi].
  destruct (toString_numeral (Z.of_nat j + 1) ltac:(lia)) as [_ Vj].
  lia.
Qed.

Lemma NoDup_map_injective {A B : Type} (f : A -> B) (l : list A) :
  (forall x y, f x = f y -> x = y) -> NoDup l -> NoDup (map f l).
Proof.
  intros Hinj. induction 1 as [|x l Hx _ IH]; cbn [map]; constructor;
    [|assumption].
  rewrite in_map_iff. intros (y & E & Hy). apply Hinj in E. now subst.
Qed.

(** The entries of the ZIP archive have pairwise different names,
    whatever the number of pages, in both variants of createZipWithPDFs:
    no page overwrites another in the archive. *)
Theorem zip_entry_names_distinct :
  forall n : nat,
    NoDup (map App.zipEntryName (seq 0 n)) /\
    NoDup (map Legacy.zipEntryName (seq 0 n)).
Proof.
  intros n. split; apply NoDup_map_injective;
    auto using zipEntryName_number, legacy_zipEntryName_number, seq_NoDup.
Qed.

(** Up to 999 pages the padded names of src/js/app.js sort as the pages
    do: the entry of an earlier page comes first in the order of strings.
    From page 1000 on this fails ("page_1000.pdf" sorts before
    "page_999.pdf"), as it does from page 10 on for the unpadded names of
    the earlier variant. *)
Theorem zip_entry_names_sorted :
  forall i j : nat,
    (i < j)%nat -> (j < 999)%nat ->
    string_ltb (App.zipEntryName i) (App.zipEntryName j) = true /\
    string_ltb (App.zipEntryName 999) (App.zipEntryName 998) = true /\
    string_ltb (Legacy.zipEntryName 9) (Legacy.zipEntryName 1) = true.
Proof.
  intros i j Hij Hj. split; [|split; reflexivity].
  destruct (padded_number (Z.of_nat i + 1) ltac:(lia)) as (Li & Di & Vi).
  destruct (padded_number (Z.of_nat j + 1) ltac:(lia)) as (Lj & Dj & Vj).
  unfold App.zipEntryName.
  change (lit "page_") with [112; 97; 103; 101; 95]%N.
  cbn [app string_ltb N.ltb N.eqb N.compare Pos.compare Pos.compare_cont
       Pos.eqb].
  apply string_ltb_app; [congruence|].
  apply digits_ltb; try assumption; [congruence | lia].
Qed.

Lemma zip_entry_names_sorted_witness :
  string_ltb (App.zipEntryName 8) (App.zipEntryName 9) = true.
Proof.
  destruct (zip_entry_names_sorted 8 9) as (H & _); [lia | lia |].
  exact H.
Defined.


(** ** Texts joined by a comma *)

Lemma fold_set_add_split (l : list Z) :
  forall s,
    fold_left (fun s x => set_add x s) l s
    = s ++ filter (fun p => negb (set_has p s)) (set_of_array l).
Proof.
  unfold set_of_array.
  induction l as [|x l IH] using rev_ind; intros s; [cbn; now rewrite app_nil_r|].
  rewrite !fold_left_app. cbn [fold_left]. rewrite IH.
  set (F := fold_left (fun s x => set_add x s) l []).
  unfold set_add. rewrite set_has_app.
  destruct (set_has x s) eqn:Es; cbn [orb].
  - destruct (set_has x F); [reflexivity|].
    rewrite filter_app. cbn [filter]. rewrite Es. cbn [negb].
    now rewrite app_nil_r.
  - rewrite set_has_filter by now rewrite Es.
    destruct (set_has x F); [reflexivity|].
    rewrite filter_app. cbn [filter]. rewrite Es. cbn [negb].
    now rewrite app_assoc.
Qed.

(** Parsing two texts joined by a comma gives the pages of the first
    text followed by those pages of the second text that the first did not
    give, each group in its own order. *)
Theorem parse_joined_texts :
  forall (a b : jsstring) (totalPages : Z) (pagesA pagesB : list Z),
    App.parsePageRanges a totalPages = Some pagesA ->
    App.parsePageRanges b totalPages = Some pagesB ->
    App.parsePageRanges (a ++ comma :: b) totalPages
    = Some (pagesA ++ filter (fun p => negb (set_has p pagesA)) pagesB).
Proof.
  intros a b totalPages pagesA pagesB Ha Hb.
  rewrite parsePageRanges_expand in *.
  injection Ha as <-. injection Hb as <-.
  rewrite expand_app. f_equal.
  unfold set_of_array at 1. rewrite fold_left_app.
  apply fold_set_add_split.
Qed.

Lemma parse_joined_texts_witness :
  App.parsePageRanges (lit "3-5,1" ++ comma :: lit "4-7,2") 10
  = Some [3; 4; 5; 1; 6; 7; 2].
Proof.
  apply (parse_joined_texts (lit "3-5,1") (lit "4-7,2") 10
           [3; 4; 5; 1] [4; 5; 6; 7; 2]); reflexivity.
Defined.

(** ** Loading another document into the preview *)

(** loadPdf does not clear the selection: when another document, of m
    pages, is loaded into a preview in use, the text field still holds the
    old selection, and parsing it for the new document gives the pages
    selected before, in their old visual order, as far as the new document
    has them; the set of selected pages is the old one. *)
Theorem loadPdf_keeps_selection :
  forall (n m : nat) (es : list App.preview_event),
    App.selectedPages (App.loadPdfAgain m (preview_run (App.loadPdf n) es))
    = App.selectedPages (preview_run (App.loadPdf n) es) /\
    App.parsePageRanges
      (App.pagesInput (App.loadPdfAgain m (preview_run (App.loadPdf n) es)))
      (Z.of_nat m)
    = Some (filter (fun p => p <=? Z.of_nat m)
              (App.getSelectedPagesArray (preview_run (App.loadPdf n) es))).
Proof.
  intros n m es. split; [reflexivity|].
  cbn [App.loadPdfAgain App.pagesInput].
  destruct (preview_run_invariant n es) as [Hperm Hsync].
  destruct (selected_pages_valid n _ Hperm) as [Hnd Hr].
  rewrite Hsync, parsePageRanges_expand.
  rewrite (expand_clip _ (Z.of_nat m) (Z.max (Z.of_nat n) (Z.of_nat m)))
    by lia.
  rewrite set_of_array_filter. do 2 f_equal.
  destruct (App.getSelectedPagesArray (preview_run (App.loadPdf n) es))
    as [|p0 rest] eqn:E; [reflexivity|].
  rewrite expand_format.
  - now apply set_of_array_NoDup.
  - discriminate.
  - eapply Forall_impl; [|exact Hr]. intros p Hp. cbv beta in Hp. lia.
Qed.

(** ** White space around the text *)

Lemma white_not_comma (c : char) :
  is_white c = true -> (c =? comma)%N = false.
Proof.
  intros H. destruct (N.eqb_spec c comma) as [->|]; [|reflexivity].
  discriminate H.
Qed.

Lemma part_pages_same_trim (totalPages : Z) (p q : jsstring) :
  trim p = trim q -> part_pages totalPages p = part_pages totalPages q.
Proof. intros E. unfold part_pages. now rewrite E. Qed.

Lemma expand_leading_white (c : char) (text : jsstring) (totalPages : Z) :
  is_white c = true ->
  expand (c :: text) totalPages = expand text totalPages.
Proof.
  intros Hc. unfold expand. cbn [split].
  rewrite (white_not_comma c Hc).
  destruct (split comma text) as [|p ps] eqn:E;
    [now apply split_not_nil in E|].
  cbn [flat_map]. f_equal. apply part_pages_same_trim.
  unfold trim. cbn [trim_start]. now rewrite Hc.
Qed.

Lemma split_snoc (c : char) (text : jsstring) :
  (c =? comma)%N = false ->
  exists ps p,
    split comma text = ps ++ [p] /\
    split comma (text ++ [c]) = ps ++ [p ++ [c]].
Proof.
  intros Hc. induction text as [|x t (ps & p & E1 & E2)].
  - exists [], []. cbn. now rewrite Hc.
  - cbn [app split]. rewrite E1, E2.
    destruct (x =? comma)%N.
    + now exists ([] :: ps), p.
    + destruct ps as [|q qs]; cbn [app].
      * now exists [], (x :: p).
      * now exists ((x :: q) :: qs), p.
Qed.

Lemma trim_start_snoc (c : char) (p : jsstring) :
  is_white c = true ->
  (trim_start p = [] /\ trim_start (p ++ [c]) = []) \/
  trim_start (p ++ [c]) = trim_start p ++ [c].
Proof.
  intros Hc. induction p as [|x p IH]; cbn [app trim_start].
  - left. now rewrite Hc.
  - destruct (is_white x); [exact IH | now right].
Qed.

Lemma trim_snoc_white (c : char) (p : jsstring) :
  is_white c = true -> trim (p ++ [c]) = trim p.
Proof.
  intros Hc. unfold trim.
  destruct (trim_start_snoc c p Hc) as [[E1 E2]|E]; [now rewrite E1, E2|].
  rewrite E. unfold trim_end. rewrite rev_app_distr. cbn [rev app trim_start].
  now rewrite Hc.
Qed.

Lemma expand_trailing_white (c : char) (text : jsstring) (totalPages : Z) :
  is_white c = true ->
  expand (text ++ [c]) totalPages = expand text totalPages.
Proof.
  intros Hc. unfold expand.
  destruct (split_snoc c text (white_not_comma c Hc)) as (ps & p & -> & ->).
  rewrite !flat_map_app. cbn [flat_map]. do 2 f_equal.
  apply part_pages_same_trim. now apply trim_snoc_white.
Qed.

Lemma expand_trim (text : jsstring) (totalPages : Z) :
  expand (trim text) totalPages = expand text totalPages.
Proof.
  unfold trim.
  transitivity (expand (trim_start text) totalPages).
  - unfold trim_end.
    rewrite <- (rev_involutive (trim_start text)) at 2.
    generalize (rev (trim_start text)) as r.
    induction r as [|c r IH]; [reflexivity|].
    cbn [trim_start]. destruct (is_white c) eqn:Hc; [|reflexivity].
    rewrite IH. cbn [rev]. symmetry. now apply expand_trailing_white.
  - induction text as [|c t IH]; [reflexivity|].
    cbn [trim_start]. destruct (is_white c) eqn:Hc; [|reflexivity].
    rewrite IH. symmetry. now apply expand_leading_white.
Qed.

(** White space around the whole text does not matter: trimming the text
    before parsing, as the split button does, never changes the result of
    either variant of the parser. *)
Theorem parse_ignores_outer_space :
  forall (text : jsstring) (totalPages : Z),
    App.parsePageRanges (trim text) totalPages
    = App.parsePageRanges text totalPages /\
    Legacy.parsePageRanges (trim text) totalPages
    = Legacy.parsePageRanges text totalPages.
Proof.
  intros text totalPages.
  rewrite !parsePageRanges_expand, !legacy_parsePageRanges_expand.
  now rewrite expand_trim.
Qed.
